(** * The orchestrator of control_plane.py

    A shallow embedding of [Orchestrator.execute] (src/control_plane.py,
    lines 93-131) and of the parts of networkx it runs on: [DiGraph.add_node],
    [DiGraph.add_edge], [in_degree], [in_edges], [neighbors] and
    [topological_sort] (the generation-wise Kahn algorithm of networkx 2.6 and
    later).  Python dictionaries whose iteration order the code can observe
    (the node and adjacency dictionaries of the graph) are association lists in
    insertion order; [results], [errors], [payload] and the call payload, which
    are only read by key, are [gmap]s.  The remote services are a parameter:
    a state of the world and a function for one HTTP call; every call the run
    makes is recorded, in order, in the state of the run.

    The request is taken in the shape the orchestrator reads: each node has
    a string "name", an "endpoint", a dictionary "inputs" from strings to
    strings and possibly a "fallback"; each edge has strings "from" and "to"
    and possibly a "fallback".

    The file has the model first, then the predicates the statements and
    invariants are written with and the concrete requests, then the proofs:
    the graph that is built, the topological sort, the run, and the
    properties C1 to C10 of the specification. *)

From Stdlib Require Import ZArith.
From stdpp Require Import gmap strings list fin_maps relations.

#[local] Set Warnings "-register-all".

(** ** JSON values (what [json.loads] and [resp.json()] produce).
    Numbers are integers here; an object keeps its (distinct) keys in order. *)

Inductive json : Type :=
  | JNull
  | JBool (b : bool)
  | JNum (z : Z)
  | JStr (s : string)
  | JArr (items : list json)
  | JObj (fields : list (string * json)).

(** Python truth value of a JSON value, as tested by [if fallback:]. *)
Definition truthy (j : json) : bool :=
  match j with
  | JNull => false
  | JBool b => b
  | JNum z => negb (z =? 0)%Z
  | JStr s => match s with EmptyString => false | String _ _ => true end
  | JArr items => match items with [] => false | _ => true end
  | JObj fields => match fields with [] => false | _ => true end
  end.

(** Lookup in a dictionary kept as an association list. *)
Fixpoint assoc {A : Type} (k : string) (l : list (string * A)) : option A :=
  match l with
  | [] => None
  | (k', a) :: l' => if decide (k = k') then Some a else assoc k l'
  end.

(** ** Exceptions that can leave [execute]. *)

Inductive exn : Type :=
  | KeyError (key : string)
  | AttributeError (attr : string)
  | HTTPException (status_code : Z) (detail : string)
  | NetworkXUnfeasible
  | RuntimeError.

(** [x.get(key)]: defined on dictionaries only; [None] is [JNull]. *)
Definition json_get (x : json) (key : string) : exn + json :=
  match x with
  | JObj fields => inr (default JNull (assoc key fields))
  | _ => inl (AttributeError "get")
  end.

(** ** The request: [graph["nodes"]] and [graph["edges"]]. *)

Record node_spec : Type := {
  n_name : string;                 (* node["name"] *)
  n_endpoint : json;               (* node["endpoint"] *)
  n_inputs : gmap string string;   (* node["inputs"]: local key -> source *)
  n_fallback : option json         (* node's own "fallback" entry, if any *)
}.

Record edge_spec : Type := {
  e_from : string;                 (* edge["from"] *)
  e_to : string;                   (* edge["to"] *)
  e_fallback : json                (* edge.get("fallback"); JNull when absent *)
}.

Record graph_spec : Type := {
  nodes : list node_spec;
  edges : list edge_spec
}.

(** ** networkx.DiGraph

    [g_node] is [G._node]: node -> attribute dictionary, in insertion order;
    the attribute dictionary of a node that only [add_edge] created is empty
    ([None]).  [g_edge] lists the edges in the order of their first insertion
    with their data dictionary, which has the single key "fallback"; reading
    it by source gives [G._succ[u]] and by target [G._pred[v]], both in
    networkx's iteration order. *)

Record DiGraph : Type := {
  g_node : list (string * option node_spec);
  g_edge : list (string * string * json)
}.

Definition empty_graph : DiGraph := {| g_node := []; g_edge := [] |}.

Definition node_names (G : DiGraph) : list string := (g_node G).*1.
Definition edge_pairs (G : DiGraph) : list (string * string) := (g_edge G).*1.

(** [self._node[n].update(attr)] with attr the whole node dictionary. *)
Definition merge_attr (old : option node_spec) (new : node_spec) : node_spec :=
  {| n_name := n_name new;
     n_endpoint := n_endpoint new;
     n_inputs := n_inputs new;
     n_fallback := match n_fallback new with
                   | Some f => Some f
                   | None => old ≫= n_fallback
                   end |}.

(** [G.add_node(name, **attr)] *)
Definition add_node (name : string) (attr : node_spec) (G : DiGraph) : DiGraph :=
  if decide (name ∈ node_names G)
  then {| g_node := map (λ na : string * option node_spec,
                           if decide (na.1 = name)
                           then (na.1, Some (merge_attr na.2 attr)) else na)
                        (g_node G);
          g_edge := g_edge G |}
  else {| g_node := g_node G ++ [(name, Some attr)]; g_edge := g_edge G |}.

(** The node part of [add_edge]: an unknown end point becomes a node with an
    empty attribute dictionary. *)
Definition touch_node (n : string) (l : list (string * option node_spec))
  : list (string * option node_spec) :=
  if decide (n ∈ l.*1) then l else l ++ [(n, None)].

(** [G.add_edge(u, v, fallback=fb)] *)
Definition add_edge (u v : string) (fb : json) (G : DiGraph) : DiGraph :=
  {| g_node := touch_node v (touch_node u (g_node G));
     g_edge := if decide ((u, v) ∈ edge_pairs G)
               then map (λ e : string * string * json,
                           if decide (e.1 = (u, v)) then (e.1, fb) else e)
                        (g_edge G)
               else g_edge G ++ [((u, v), fb)] |}.

(** Lines 94-100 of [execute]. *)
Definition build (g : graph_spec) : DiGraph :=
  foldl (λ G e, add_edge (e_from e) (e_to e) (e_fallback e) G)
        (foldl (λ G n, add_node (n_name n) n G) empty_graph (nodes g))
        (edges g).

(** [G.in_edges(name)], with the data of each edge. *)
Definition in_edges (G : DiGraph) (v : string) : list (string * string * json) :=
  filter (λ e, e.1.2 = v) (g_edge G).

(** [G.neighbors(u)] *)
Definition successors (G : DiGraph) (u : string) : list string :=
  (filter (λ e : string * string, e.1 = u) (edge_pairs G)).*2.

Definition predecessors (G : DiGraph) (v : string) : list string :=
  (filter (λ e : string * string, e.2 = v) (edge_pairs G)).*1.

(** [G.in_degree(v)] *)
Definition in_degree (G : DiGraph) (v : string) : Z :=
  Z.of_nat (length (predecessors G v)).

(** ** networkx.topological_sort *)

Inductive topo_end : Type :=
  | TopoDone            (* the generator is exhausted *)
  | TopoUnfeasible      (* raise NetworkXUnfeasible *)
  | TopoRuntimeError.   (* raise RuntimeError("Graph changed during iteration") *)

(** indegree_map = {v: d for v, d in G.in_degree() if d > 0} *)
Definition indegree_map0 (G : DiGraph) : gmap string Z :=
  list_to_map (filter (λ vd : string * Z, (0 < vd.2)%Z)
                      (map (λ v, (v, in_degree G v)) (node_names G))).

(** zero_indegree = [v for v, d in G.in_degree() if d == 0] *)
Definition zero_indegree0 (G : DiGraph) : list string :=
  filter (λ v, in_degree G v = 0%Z) (node_names G).

(** The body of [for child in G.neighbors(node)]. *)
Definition dec_child (st : gmap string Z * list string) (child : string)
  : option (gmap string Z * list string) :=
  match st.1 !! child with
  | None => None                                   (* KeyError -> RuntimeError *)
  | Some d =>
      let d' := (d - 1)%Z in
      if decide (d' = 0%Z)
      then Some (delete child st.1, st.2 ++ [child])
      else Some (<[child := d']> st.1, st.2)
  end.

Fixpoint dec_children (children : list string) (st : gmap string Z * list string)
  : option (gmap string Z * list string) :=
  match children with
  | [] => Some st
  | c :: cs => match dec_child st c with
               | None => None
               | Some st' => dec_children cs st'
               end
  end.

(** [for node in this_generation: ...] *)
Fixpoint process_generation (G : DiGraph) (this_generation : list string)
    (st : gmap string Z * list string) : option (gmap string Z * list string) :=
  match this_generation with
  | [] => Some st
  | node :: rest =>
      if decide (node ∈ node_names G)
      then match dec_children (successors G node) st with
           | None => None
           | Some st' => process_generation G rest st'
           end
      else None
  end.

(** The [while zero_indegree:] loop together with the final test.  The result
    is the sequence of nodes the generator yields and the way it ends.  The
    loop is not structurally recursive, so the model counts rounds; [None]
    means that the counter ran out (it never does, see
    [topological_sort_total]). *)
Fixpoint generations (fuel : nat) (G : DiGraph) (indegree_map : gmap string Z)
    (zero_indegree : list string) : option (list string * topo_end) :=
  match zero_indegree with
  | [] => Some ([], if decide (indegree_map = ∅) then TopoDone else TopoUnfeasible)
  | _ :: _ =>
      match fuel with
      | O => None
      | S fuel' =>
          match process_generation G zero_indegree (indegree_map, []) with
          | None => Some ([], TopoRuntimeError)
          | Some (indegree_map', zero_indegree') =>
              match generations fuel' G indegree_map' zero_indegree' with
              | None => None
              | Some (rest, fin) => Some (zero_indegree ++ rest, fin)
              end
          end
      end
  end.

Definition topological_sort (G : DiGraph) : option (list string * topo_end) :=
  generations (S (length (g_node G))) G (indegree_map0 G) (zero_indegree0 G).

(** ** The run *)

Inductive call_kind : Type := Primary | Fallback.

(** One completed [self.client.post(url, json=inputs, timeout=5.0)] followed
    by [raise_for_status()] and [resp.json()]: the reply is the decoded body,
    or the text [str(e)] of the exception. *)
Record call_event : Type := {
  ev_node : string;
  ev_kind : call_kind;
  ev_url : json;
  ev_payload : gmap string json;
  ev_reply : string + json
}.

Section orchestrator.

(** The remote services: a state of the outside world and the effect of one
    call on it.  [post w url inputs] stands for
    [self.client.post(url, json=inputs, timeout=5.0)], [raise_for_status()] and
    [resp.json()] together: it yields the decoded body, or the text of the
    exception that any of the three raised (a [url] that is not a string
    included). *)
Context {World : Type}.
Variable post : World → json → gmap string json → (string + json) * World.

Record run_state : Type := {
  results : gmap string json;
  errors : gmap string string;
  payload : gmap string json;     (* the caller's dictionary *)
  calls : list call_event;        (* the calls completed so far *)
  world : World
}.

Inductive outcome : Type :=
  | Return (st : run_state)       (* ExecuteResponse(results, errors) *)
  | Raise (e : exn) (st : run_state).

Definition final_state (o : outcome) : run_state :=
  match o with Return st => st | Raise _ st => st end.

Definition init_state (p : gmap string json) (w : World) : run_state :=
  {| results := ∅; errors := ∅; payload := p; calls := []; world := w |}.

(** inputs = {k: results.get(v, payload.get(v)) for k, v in node["inputs"].items()} *)
Definition resolve_inputs (st : run_state) (inputs : gmap string string)
  : gmap string json :=
  (λ v, default (default JNull (payload st !! v)) (results st !! v)) <$> inputs.

(** The call and its record in the trace. *)
Definition do_call (st : run_state) (name : string) (kind : call_kind)
    (url : json) (inputs : gmap string json) : (string + json) * run_state :=
  let '(reply, w') := post (world st) url inputs in
  (reply,
   {| results := results st; errors := errors st; payload := payload st;
      calls := calls st ++ [{| ev_node := name; ev_kind := kind; ev_url := url;
                               ev_payload := inputs; ev_reply := reply |}];
      world := w' |}).

Definition set_result (name : string) (body : json) (st : run_state) : run_state :=
  {| results := <[name := body]> (results st); errors := errors st;
     payload := payload st; calls := calls st; world := world st |}.

Definition set_error (name : string) (msg : string) (st : run_state) : run_state :=
  {| results := results st; errors := <[name := msg]> (errors st);
     payload := payload st; calls := calls st; world := world st |}.

(** Lines 116-119: the fallback of a failed node.  [G.edges[in_edges[0]]]
    is the data dictionary {"fallback": fb} of the first inbound edge; it is
    then indexed by the node's name, and [.get("fallback")] is called on
    the value found. *)
Definition edge_data_getitem (fb : json) (key : string) : option json :=
  if decide (key = "fallback") then Some fb else None.

Definition lookup_fallback (G : DiGraph) (name : string) : exn + json :=
  match in_edges G name with
  | [] => inr JNull
  | e :: _ =>
      match edge_data_getitem e.2 name with
      | None => inl (KeyError name)
      | Some x => json_get x "fallback"
      end
  end.

(** The body of the loop, lines 105-130. *)
Definition exec_node (G : DiGraph) (st : run_state) (name : string) : outcome :=
  match assoc name (g_node G) with
  | None => Raise (KeyError name) st
  | Some None => Raise (KeyError "endpoint") st
  | Some (Some node) =>
      let service_url := n_endpoint node in
      let inputs := resolve_inputs st (n_inputs node) in
      match do_call st name Primary service_url inputs with
      | (inr body, st1) => Return (set_result name body st1)
      | (inl e, st1) =>
          let st2 := set_error name e st1 in
          match lookup_fallback G name with
          | inl ex => Raise ex st2
          | inr fallback =>
              if truthy fallback
              then match do_call st2 name Fallback fallback inputs with
                   | (inr body, st3) => Return (set_result name body st3)
                   | (inl e2, st3) =>
                       Return (set_error name (e +:+ "; fallback failed: " +:+ e2) st3)
                   end
              else Raise (HTTPException 502
                            (name +:+ " failed and no fallback available")) st2
          end
      end
  end.

Fixpoint exec_nodes (G : DiGraph) (order : list string) (st : run_state) : outcome :=
  match order with
  | [] => Return st
  | name :: rest =>
      match exec_node G st name with
      | Return st' => exec_nodes G rest st'
      | Raise e st' => Raise e st'
      end
  end.

(** [Orchestrator.execute]: the nodes are consumed from the generator one by
    one, so the way the generator ends is seen only after the nodes it
    yielded have run. *)
Definition execute (g : graph_spec) (p : gmap string json) (w : World)
  : option outcome :=
  let G := build g in
  match topological_sort G with
  | None => None
  | Some (order, fin) =>
      Some match exec_nodes G order (init_state p w) with
           | Raise e st => Raise e st
           | Return st =>
               match fin with
               | TopoDone => Return st
               | TopoUnfeasible => Raise NetworkXUnfeasible st
               | TopoRuntimeError => Raise RuntimeError st
               end
           end
  end.

End orchestrator.

Arguments Return {World} st.
Arguments Raise {World} e st.

(** * Vocabulary of the proofs *)

(** ** The graph that [execute] builds *)

(** What networkx's dictionaries guarantee: node keys are distinct, a pair of
    end points has one edge, and the end points of an edge are nodes. *)
Definition graph_wf (G : DiGraph) : Prop :=
  NoDup (node_names G) ∧ NoDup (edge_pairs G) ∧
  ∀ u v, (u, v) ∈ edge_pairs G → u ∈ node_names G ∧ v ∈ node_names G.

(** The names and the edges of the request. *)
Definition spec_names (g : graph_spec) : list string := n_name <$> nodes g.

Definition spec_pairs (g : graph_spec) : list (string * string) :=
  (λ e, (e_from e, e_to e)) <$> edges g.

(** The two loops of [build]. *)
Definition add_nodes (l : list node_spec) (G : DiGraph) : DiGraph :=
  foldl (λ G n, add_node (n_name n) n G) G l.

Definition add_edges (l : list edge_spec) (G : DiGraph) : DiGraph :=
  foldl (λ G e, add_edge (e_from e) (e_to e) (e_fallback e) G) G l.

(** A node has attributes only if its name satisfies [P]. *)
Definition attrs_in (P : string → Prop) (G : DiGraph) : Prop :=
  ∀ x a, assoc x (g_node G) = Some (Some a) → P x.

(** ** The invariant of the topological sort *)

(** The in-degree left to a node by the edges [R] that have not been
    discounted yet. *)
Definition rem_in (R : list (string * string)) (v : string) : nat :=
  length (filter (λ e : string * string, e.2 = v) R).

Definition drop_edge (e : string * string) (R : list (string * string))
  : list (string * string) :=
  filter (λ e', e' ≠ e) R.

(** [indegree_map] holds the remaining in-degree of the nodes that still
    have one. *)
Definition imap_ok (R : list (string * string)) (m : gmap string Z) : Prop :=
  ∀ v, m !! v = if decide (rem_in R v = 0) then None
                else Some (Z.of_nat (rem_in R v)).

(** The nodes released so far are those without a remaining inbound edge. *)
Definition zero_ok (G : DiGraph) (R : list (string * string))
    (released : list string) : Prop :=
  NoDup released ∧
  ∀ v, v ∈ released ↔ v ∈ node_names G ∧ rem_in R v = 0.

Definition edge_inv (G : DiGraph) (R : list (string * string)) (m : gmap string Z)
    (base zs : list string) : Prop :=
  NoDup R ∧ (∀ e, e ∈ R → e ∈ edge_pairs G) ∧ imap_ok R m ∧ zero_ok G R (base ++ zs).

(** The edges whose source has not been processed. *)
Definition edges_outside (G : DiGraph) (done : list string) : list (string * string) :=
  filter (λ e : string * string, e.1 ∉ done) (edge_pairs G).

(** Every node of the sequence comes after all its predecessors. *)
Definition topo_sorted (G : DiGraph) (l : list string) : Prop :=
  ∀ i n p, l !! i = Some n → (p, n) ∈ edge_pairs G →
           ∃ j, j < i ∧ l !! j = Some p.

Definition loop_inv (G : DiGraph) (emitted zero : list string) (m : gmap string Z)
  : Prop :=
  edge_inv G (edges_outside G emitted) m emitted zero ∧ topo_sorted G emitted.

(** ** Calls and reports *)

#[global] Instance call_kind_eq_dec : EqDecision call_kind.
Proof. solve_decision. Defined.

(** The calls made for one node. *)
Definition node_calls (n : string) (t : list call_event) : list call_event :=
  filter (λ ev, ev_node ev = n) t.

Definition failed (ev : call_event) : Prop := ∃ msg, ev_reply ev = inl msg.

Definition call (n : string) (kind : call_kind) (url : json)
    (inputs : gmap string json) (reply : string + json) : call_event :=
  {| ev_node := n; ev_kind := kind; ev_url := url; ev_payload := inputs;
     ev_reply := reply |}.

Definition no_fallback_detail (n : string) : string :=
  n +:+ " failed and no fallback available".

Section run_vocabulary.

Context {World : Type}.
Variable post : World → json → gmap string json → (string + json) * World.

(** The paths through one round of the loop (lines 105-130). *)
Inductive node_step (G : DiGraph) (st : run_state (World := World)) (n : string)
  : outcome (World := World) → Prop :=
  | StepMissing :
      assoc n (g_node G) = None →
      node_step G st n (Raise (KeyError n) st)
  | StepNoAttrs :
      assoc n (g_node G) = Some None →
      node_step G st n (Raise (KeyError "endpoint") st)
  | StepOk node body w1 :
      assoc n (g_node G) = Some (Some node) →
      post (world st) (n_endpoint node) (resolve_inputs st (n_inputs node))
        = (inr body, w1) →
      node_step G st n (Return
        {| results := <[n := body]> (results st); errors := errors st;
           payload := payload st;
           calls := calls st ++ [call n Primary (n_endpoint node)
                                   (resolve_inputs st (n_inputs node)) (inr body)];
           world := w1 |})
  | StepAbort node e w1 ex :
      assoc n (g_node G) = Some (Some node) →
      post (world st) (n_endpoint node) (resolve_inputs st (n_inputs node))
        = (inl e, w1) →
      (lookup_fallback G n = inl ex ∨
       ∃ fb, lookup_fallback G n = inr fb ∧ truthy fb = false ∧
             ex = HTTPException 502 (no_fallback_detail n)) →
      node_step G st n (Raise ex
        {| results := results st; errors := <[n := e]> (errors st);
           payload := payload st;
           calls := calls st ++ [call n Primary (n_endpoint node)
                                   (resolve_inputs st (n_inputs node)) (inl e)];
           world := w1 |})
  | StepRecovered node e w1 fb body w2 :
      assoc n (g_node G) = Some (Some node) →
      post (world st) (n_endpoint node) (resolve_inputs st (n_inputs node))
        = (inl e, w1) →
      lookup_fallback G n = inr fb → truthy fb = true →
      post w1 fb (resolve_inputs st (n_inputs node)) = (inr body, w2) →
      node_step G st n (Return
        {| results := <[n := body]> (results st); errors := <[n := e]> (errors st);
           payload := payload st;
           calls := calls st ++
                    [call n Primary (n_endpoint node)
                       (resolve_inputs st (n_inputs node)) (inl e);
                     call n Fallback fb
                       (resolve_inputs st (n_inputs node)) (inr body)];
           world := w2 |})
  | StepFailed node e w1 fb e2 w2 :
      assoc n (g_node G) = Some (Some node) →
      post (world st) (n_endpoint node) (resolve_inputs st (n_inputs node))
        = (inl e, w1) →
      lookup_fallback G n = inr fb → truthy fb = true →
      post w1 fb (resolve_inputs st (n_inputs node)) = (inl e2, w2) →
      node_step G st n (Return
        {| results := results st;
           errors := <[n := e +:+ "; fallback failed: " +:+ e2]>
                       (<[n := e]> (errors st));
           payload := payload st;
           calls := calls st ++
                    [call n Primary (n_endpoint node)
                       (resolve_inputs st (n_inputs node)) (inl e);
                     call n Fallback fb
                       (resolve_inputs st (n_inputs node)) (inl e2)];
           world := w2 |}).

(** For each node, what [results] and [errors] hold is fixed by the calls
    made for it: none; a primary call; a failed primary call followed by a
    fallback call with the same payload. *)
Definition node_ok (n : string) (st : run_state (World := World)) : Prop :=
  match node_calls n (calls st) with
  | [] => results st !! n = None ∧ errors st !! n = None
  | [c1] =>
      ev_kind c1 = Primary ∧
      match ev_reply c1 with
      | inr body => results st !! n = Some body ∧ errors st !! n = None
      | inl e => results st !! n = None ∧ errors st !! n = Some e
      end
  | [c1; c2] =>
      ev_kind c1 = Primary ∧ ev_kind c2 = Fallback ∧
      ev_payload c2 = ev_payload c1 ∧
      match ev_reply c1, ev_reply c2 with
      | inl e, inr body => results st !! n = Some body ∧ errors st !! n = Some e
      | inl e, inl e2 =>
          results st !! n = None ∧
          errors st !! n = Some (e +:+ "; fallback failed: " +:+ e2)
      | inr _, _ => False
      end
  | _ => False
  end.

(** The exception a run ends with, if any. *)
Definition raised (o : outcome (World := World)) : option exn :=
  match o with Return _ => None | Raise e _ => Some e end.

(** What a run leaves behind apart from the state of the services. *)
Definition visible (st : run_state (World := World))
  : gmap string json * gmap string string * gmap string json * list call_event :=
  (results st, errors st, payload st, calls st).

Definition same_outcome (o1 o2 : outcome (World := World)) : Prop :=
  raised o1 = raised o2 ∧ visible (final_state o1) = visible (final_state o2).

End run_vocabulary.

(** ** Graphs that a validation would reject *)

Definition edge_rel (g : graph_spec) (u v : string) : Prop := (u, v) ∈ spec_pairs g.

Definition has_cycle (g : graph_spec) : Prop := ∃ u, tc (edge_rel g) u u.

Definition has_dangling_edge (g : graph_spec) : Prop :=
  ∃ e, e ∈ edges g ∧ (e_from e ∉ spec_names g ∨ e_to e ∉ spec_names g).

Definition has_duplicate_name (g : graph_spec) : Prop := ¬ NoDup (spec_names g).

(** ** The request without the nodes' own fallback entries *)

Definition strip_fallback (nd : node_spec) : node_spec :=
  {| n_name := n_name nd; n_endpoint := n_endpoint nd; n_inputs := n_inputs nd;
     n_fallback := None |}.

Definition strip_own_fallback (g : graph_spec) : graph_spec :=
  {| nodes := strip_fallback <$> nodes g; edges := edges g |}.

Definition strip_entry (na : string * option node_spec) : string * option node_spec :=
  (na.1, strip_fallback <$> na.2).

Definition strip_graph (G : DiGraph) : DiGraph :=
  {| g_node := strip_entry <$> g_node G; g_edge := g_edge G |}.

(** The edges of the graph as a relation. *)
Definition graph_edge (G : DiGraph) (u v : string) : Prop := (u, v) ∈ edge_pairs G.

(** ** Repeated entries of the request *)

(** The last entry of "nodes" with a given name, and the last entry of
    "edges" with given end points. *)
Definition last_node (x : string) (l : list node_spec) : option node_spec :=
  last (filter (λ n, n_name n = x) l).

Definition last_edge (u v : string) (l : list edge_spec) : option edge_spec :=
  last (filter (λ e, e_from e = u ∧ e_to e = v) l).

(** ** The API routes around [execute]

    [run_graph] (lines 144-146) and [plan_and_run] (lines 148-151).  The
    planner is a parameter: [plan intent] is the graph [planner.plan(intent)]
    hands to the orchestrator, or the exception it raised (registry, model or
    JSON decoding). *)

Section api.

Context {World PlanError : Type}.
Variable post : World → json → gmap string json → (string + json) * World.
Variable plan : string → PlanError + graph_spec.

Inductive api_result : Type :=
  | PlanRaised (e : PlanError)
  | Executed (o : outcome (World := World)).

(** return await orch.execute(req.graph, req.payload) *)
Definition run_graph (g : graph_spec) (p : gmap string json) (w : World)
  : option (outcome (World := World)) :=
  execute post g p w.

(** plan = planner.plan(req.intent); return await orch.execute(plan.graph, {}) *)
Definition plan_and_run (intent : string) (w : World) : option api_result :=
  match plan intent with
  | inl e => Some (PlanRaised e)
  | inr g => Executed <$> execute post g ∅ w
  end.

End api.

Arguments PlanRaised {World PlanError} e.
Arguments Executed {World PlanError} o.

(** ** Concrete requests and service stubs *)

Module Examples.

Definition mk_node (name url : string) (inputs : list (string * string))
    (own : option json) : node_spec :=
  {| n_name := name; n_endpoint := JStr url; n_inputs := list_to_map inputs;
     n_fallback := own |}.

Definition mk_edge (u v : string) (fb : json) : edge_spec :=
  {| e_from := u; e_to := v; e_fallback := fb |}.

(** Service stubs.  The state of the world is the number of calls served:
    "http://a" answers {"v": 1}, "http://echo" answers its input,
    "http://fb" answers {"ok": true}, "http://down2" fails with "timeout",
    anything else fails with "boom". *)
Definition stub_reply (url : json) (inputs : gmap string json) : string + json :=
  match url with
  | JStr "http://a" => inr (JObj [("v", JNum 1)])
  | JStr "http://echo" => inr (JObj (map_to_list inputs))
  | JStr "http://fb" => inr (JObj [("ok", JBool true)])
  | JStr "http://down2" => inl "timeout"
  | _ => inl "boom"
  end.

Definition stub (w : nat) (url : json) (inputs : gmap string json)
  : (string + json) * nat :=
  (stub_reply url inputs, S w).

(** A -> B, B.inputs = {x: "A"} *)
Definition g_chain : graph_spec :=
  {| nodes := [mk_node "A" "http://a" [] None;
               mk_node "B" "http://echo" [("x", "A")] None];
     edges := [mk_edge "A" "B" JNull] |}.

Definition call_A : call_event :=
  call "A" Primary (JStr "http://a") ∅ (inr (JObj [("v", JNum 1)])).
Definition call_B : call_event :=
  call "B" Primary (JStr "http://echo") {[ "x" := JObj [("v", JNum 1)] ]}
       (inr (JObj [("x", JObj [("v", JNum 1)])])).

(** A fails and has no inbound edge; B is independent of A; C depends on A. *)
Definition g_branches : graph_spec :=
  {| nodes := [mk_node "A" "http://down" [] None;
               mk_node "B" "http://a" [] None;
               mk_node "C" "http://echo" [("x", "A")] None];
     edges := [mk_edge "A" "C" JNull] |}.

(** A single node that fails and carries its own fallback. *)
Definition g_own : graph_spec :=
  {| nodes := [mk_node "A" "http://down" [] (Some (JStr "http://fb"))];
     edges := [] |}.

(** The name "A" twice. *)
Definition g_dup : graph_spec :=
  {| nodes := [mk_node "A" "http://a" [] None; mk_node "A" "http://echo" [] None];
     edges := [] |}.

(** B and C on a cycle, A apart. *)
Definition g_cycle : graph_spec :=
  {| nodes := [mk_node "A" "http://a" [] None;
               mk_node "B" "http://a" [] None;
               mk_node "C" "http://a" [] None];
     edges := [mk_edge "B" "C" JNull; mk_edge "C" "B" JNull] |}.

(** An edge to a node "X" that is not listed. *)
Definition g_dangling : graph_spec :=
  {| nodes := [mk_node "A" "http://a" [] None];
     edges := [mk_edge "A" "X" JNull] |}.

(** The one shape of request for which lines 116-119 yield a fallback: the
    failing node is named "fallback" and the "fallback" entry of its first
    inbound edge is itself an object with a "fallback" entry. *)
Definition g_fallback (fb_url : string) : graph_spec :=
  {| nodes := [mk_node "A" "http://a" [] None;
               mk_node "fallback" "http://down" [("x", "A")] None];
     edges := [mk_edge "A" "fallback" (JObj [("fallback", JStr fb_url)])] |}.

Definition call_primary : call_event :=
  call "fallback" Primary (JStr "http://down") {[ "x" := JObj [("v", JNum 1)] ]}
       (inl "boom").
Definition call_fallback (fb_url : string) (reply : string + json) : call_event :=
  call "fallback" Fallback (JStr fb_url) {[ "x" := JObj [("v", JNum 1)] ]} reply.

(** The outcome of running a request on the stubs, from a fresh world and
    with an empty payload. *)
Definition outcome_of (g : graph_spec) : outcome (World := nat) :=
  default (Return (init_state ∅ 0)) (execute stub g ∅ 0).

(** Whether [needle] occurs in [hay]. *)
Definition mentions (needle hay : string) : bool :=
  match String.index 0 needle hay with Some _ => true | None => false end.

(** "A" is listed after the root "R" and fails; it has an inbound edge. *)
Definition g_inner : graph_spec :=
  {| nodes := [mk_node "R" "http://a" [] None;
               mk_node "A" "http://down" [("x", "R")] None];
     edges := [mk_edge "R" "A" (JStr "http://fb")] |}.

(** The edge A -> B twice, the second time without a fallback. *)
Definition g_dup_edge : graph_spec :=
  {| nodes := [mk_node "A" "http://a" [] None;
               mk_node "B" "http://echo" [("x", "A")] None];
     edges := [mk_edge "A" "B" (JStr "http://fb"); mk_edge "A" "B" JNull] |}.

(** A planner that answers every intent with the chain A -> B, whose node B
    also asks for the payload entry "user". *)
Definition g_planned : graph_spec :=
  {| nodes := [mk_node "A" "http://a" [] None;
               mk_node "B" "http://echo" [("x", "A"); ("u", "user")] None];
     edges := [mk_edge "A" "B" JNull] |}.

Definition planner (intent : string) : string + graph_spec := inr g_planned.

Definition call_inner : call_event :=
  call "A" Primary (JStr "http://down") {[ "x" := JObj [("v", JNum 1)] ]}
       (inl "boom").

(** The call of "B" in the planned graph: "x" is the result of "A", "u" is
    null. *)
Definition call_planned : call_event :=
  let inputs : gmap string json :=
    {[ "x" := JObj [("v", JNum 1)]; "u" := JNull ]} in
  call "B" Primary (JStr "http://echo") inputs (stub_reply (JStr "http://echo") inputs).

End Examples.

(** * The graph that [execute] builds *)

Lemma assoc_None {A} (x : string) (l : list (string * A)) :
  assoc x l = None ↔ x ∉ l.*1.
Proof.
  induction l as [|[k a] l IH]; simpl.
  - split; [intros _; apply not_elem_of_nil | done].
  - rewrite not_elem_of_cons. case_decide; [|tauto].
    split; [done | intros [? _]; done].
Qed.

Lemma assoc_app {A} (x : string) (l k : list (string * A)) :
  assoc x (l ++ k) = match assoc x l with Some a => Some a | None => assoc x k end.
Proof.
  induction l as [|[y a] l IH]; simpl; [done|]. by case_decide.
Qed.

Lemma touch_node_names n l :
  (touch_node n l).*1 = if decide (n ∈ l.*1) then l.*1 else l.*1 ++ [n].
Proof. unfold touch_node. case_decide; [done|]. by rewrite fmap_app. Qed.

Lemma elem_of_touch_node n l x :
  x ∈ (touch_node n l).*1 ↔ x ∈ l.*1 ∨ x = n.
Proof.
  rewrite touch_node_names. case_decide.
  - split; [tauto | intros [?| ->]; done].
  - by rewrite elem_of_app, list_elem_of_singleton.
Qed.

Lemma touch_node_NoDup n l : NoDup l.*1 → NoDup (touch_node n l).*1.
Proof.
  intros Hnd. rewrite touch_node_names. case_decide; [done|].
  apply NoDup_app. split_and!; [done| |apply NoDup_singleton].
  intros x Hx ->%list_elem_of_singleton. done.
Qed.

Lemma assoc_touch_node n l x :
  assoc x (touch_node n l) =
  match assoc x l with
  | Some a => Some a
  | None => if decide (x = n) then Some None else None
  end.
Proof.
  unfold touch_node. case_decide as Hn.
  - destruct (assoc x l) eqn:Hx; [done|]. case_decide; [|done].
    subst. by apply assoc_None in Hx.
  - rewrite assoc_app. simpl. by destruct (assoc x l).
Qed.

Lemma add_node_names name a G :
  node_names (add_node name a G) =
  if decide (name ∈ node_names G) then node_names G else node_names G ++ [name].
Proof.
  unfold add_node, node_names. case_decide; simpl; [|by rewrite fmap_app].
  rewrite <- list_fmap_compose. apply list_fmap_ext.
  intros _ [m o] _. simpl. by case_decide.
Qed.

Lemma add_node_edges name a G : g_edge (add_node name a G) = g_edge G.
Proof. unfold add_node. by case_decide. Qed.

Lemma add_edge_pairs u v fb G :
  edge_pairs (add_edge u v fb G) =
  if decide ((u, v) ∈ edge_pairs G) then edge_pairs G else edge_pairs G ++ [(u, v)].
Proof.
  unfold add_edge, edge_pairs. simpl. case_decide; [|by rewrite fmap_app].
  rewrite <- list_fmap_compose. apply list_fmap_ext.
  intros _ [m o] _. simpl. by case_decide.
Qed.

Lemma elem_of_add_node_names name a G x :
  x ∈ node_names (add_node name a G) ↔ x ∈ node_names G ∨ x = name.
Proof.
  rewrite add_node_names. case_decide.
  - split; [tauto | intros [?| ->]; done].
  - by rewrite elem_of_app, list_elem_of_singleton.
Qed.

Lemma elem_of_add_edge_names u v fb G x :
  x ∈ node_names (add_edge u v fb G) ↔ x ∈ node_names G ∨ x = u ∨ x = v.
Proof.
  unfold node_names, add_edge. simpl.
  rewrite !elem_of_touch_node. tauto.
Qed.

Lemma elem_of_add_edge_pairs u v fb G e :
  e ∈ edge_pairs (add_edge u v fb G) ↔ e ∈ edge_pairs G ∨ e = (u, v).
Proof.
  rewrite add_edge_pairs. case_decide.
  - split; [tauto | intros [?| ->]; done].
  - by rewrite elem_of_app, list_elem_of_singleton.
Qed.

Lemma add_node_wf name a G : graph_wf G → graph_wf (add_node name a G).
Proof.
  intros (Hn & He & Hends). unfold graph_wf.
  unfold edge_pairs. rewrite add_node_edges. fold (edge_pairs G).
  split_and!; [|done|].
  - rewrite add_node_names. case_decide; [done|].
    apply NoDup_app. split_and!; [done| |apply NoDup_singleton].
    intros x Hx ->%list_elem_of_singleton. done.
  - intros u v Huv. rewrite !elem_of_add_node_names.
    destruct (Hends u v Huv). tauto.
Qed.

Lemma add_edge_wf u v fb G : graph_wf G → graph_wf (add_edge u v fb G).
Proof.
  intros (Hn & He & Hends). split_and!.
  - unfold node_names, add_edge. simpl. by do 2 apply touch_node_NoDup.
  - rewrite add_edge_pairs. case_decide; [done|].
    apply NoDup_app. split_and!; [done| |apply NoDup_singleton].
    intros x Hx ->%list_elem_of_singleton. done.
  - intros a b. rewrite elem_of_add_edge_pairs, !elem_of_add_edge_names.
    intros [Hab|[= -> ->]]; [destruct (Hends a b Hab)|]; tauto.
Qed.

Lemma empty_graph_wf : graph_wf empty_graph.
Proof.
  split_and!; try apply NoDup_nil_2.
  intros u v Huv. by apply elem_of_nil in Huv.
Qed.

Lemma build_wf g : graph_wf (build g).
Proof.
  unfold build.
  assert (Hnodes : ∀ l G, graph_wf G →
            graph_wf (foldl (λ G n, add_node (n_name n) n G) G l)).
  { induction l as [|n l IH]; intros G HG; simpl; [done|].
    by apply IH, add_node_wf. }
  assert (Hedges : ∀ l G, graph_wf G →
            graph_wf (foldl (λ G e, add_edge (e_from e) (e_to e) (e_fallback e) G) G l)).
  { induction l as [|e l IH]; intros G HG; simpl; [done|].
    by apply IH, add_edge_wf. }
  apply Hedges, Hnodes, empty_graph_wf.
Qed.

(** The names, the edges and the attribute dictionaries of the built graph in
    terms of the request. *)

Lemma build_unfold g : build g = add_edges (edges g) (add_nodes (nodes g) empty_graph).
Proof. done. Qed.

Lemma add_nodes_names l : ∀ G x,
  x ∈ node_names (add_nodes l G) ↔ x ∈ node_names G ∨ x ∈ n_name <$> l.
Proof.
  induction l as [|n l IH]; intros G x; simpl.
  - rewrite elem_of_nil. tauto.
  - rewrite IH, elem_of_add_node_names, elem_of_cons. tauto.
Qed.

Lemma add_nodes_edges l : ∀ G, g_edge (add_nodes l G) = g_edge G.
Proof.
  induction l as [|n l IH]; intros G; simpl; [done|].
  by rewrite IH, add_node_edges.
Qed.

Lemma add_edges_names l : ∀ G x,
  x ∈ node_names (add_edges l G) ↔
  x ∈ node_names G ∨ ∃ e, e ∈ l ∧ (e_from e = x ∨ e_to e = x).
Proof.
  induction l as [|e l IH]; intros G x; simpl.
  - split; [tauto | intros [?|(e & []%elem_of_nil & _)]; done].
  - rewrite IH, elem_of_add_edge_names. split.
    + intros [[?|[->| ->]]|(e' & He' & Hx)]; [by left| | |].
      * right. exists e. split; [left|]; auto.
      * right. exists e. split; [left|]; auto.
      * right. exists e'. split; [by right|done].
    + intros [?|(e' & [->|He']%elem_of_cons & Hx)]; [tauto| |eauto].
      left. destruct Hx as [<-|<-]; tauto.
Qed.

Lemma add_edges_pairs l : ∀ G p,
  p ∈ edge_pairs (add_edges l G) ↔
  p ∈ edge_pairs G ∨ p ∈ (λ e, (e_from e, e_to e)) <$> l.
Proof.
  induction l as [|e l IH]; intros G p; simpl.
  - rewrite elem_of_nil. tauto.
  - rewrite IH, elem_of_add_edge_pairs, elem_of_cons. tauto.
Qed.

Lemma build_node_names g x :
  x ∈ node_names (build g) ↔
  x ∈ spec_names g ∨ ∃ e, e ∈ edges g ∧ (e_from e = x ∨ e_to e = x).
Proof.
  rewrite build_unfold, add_edges_names, add_nodes_names.
  unfold node_names at 1. simpl. rewrite elem_of_nil. unfold spec_names. tauto.
Qed.

Lemma build_edge_pairs g p : p ∈ edge_pairs (build g) ↔ p ∈ spec_pairs g.
Proof.
  rewrite build_unfold, add_edges_pairs. unfold edge_pairs at 1.
  rewrite add_nodes_edges. simpl. rewrite elem_of_nil. unfold spec_pairs. tauto.
Qed.

Lemma assoc_add_node_Some name a G x b :
  assoc x (g_node (add_node name a G)) = Some (Some b) →
  x = name ∨ assoc x (g_node G) = Some (Some b).
Proof.
  unfold add_node. case_decide as Hin; simpl.
  - clear Hin. induction (g_node G) as [|[k o] l IH]; simpl; [done|].
    repeat case_decide; simplify_eq/=; try tauto; try done.
  - rewrite assoc_app. destruct (assoc x (g_node G)); [tauto|].
    simpl. case_decide; [tauto|done].
Qed.

Lemma add_nodes_attrs (P : string → Prop) l : ∀ G,
  attrs_in P G → (∀ n, n ∈ l → P (n_name n)) → attrs_in P (add_nodes l G).
Proof.
  induction l as [|n l IH]; intros G HG Hl; simpl; [done|].
  apply IH.
  - intros x b [->|Hx]%assoc_add_node_Some; [apply Hl; left|by eapply HG].
  - intros m Hm. apply Hl. by right.
Qed.

Lemma add_edges_attrs (P : string → Prop) l : ∀ G,
  attrs_in P G → attrs_in P (add_edges l G).
Proof.
  induction l as [|e l IH]; intros G HG; simpl; [done|].
  apply IH. intros x b. unfold add_edge. simpl.
  rewrite !assoc_touch_node. intros Hx. apply (HG x b).
  destruct (assoc x (g_node G)); [done|].
  repeat case_decide; simplify_eq.
Qed.

Lemma build_attrs g : attrs_in (λ x, x ∈ spec_names g) (build g).
Proof.
  rewrite build_unfold. apply add_edges_attrs, add_nodes_attrs.
  - intros x a. done.
  - intros n Hn. unfold spec_names. by apply list_elem_of_fmap_2.
Qed.

(** A node that only an edge mentions is in the graph with an empty
    attribute dictionary. *)
Lemma build_assoc_unknown g x :
  x ∈ node_names (build g) → x ∉ spec_names g →
  assoc x (g_node (build g)) = Some None.
Proof.
  intros Hin Hnot. destruct (assoc x (g_node (build g))) as [[a|]|] eqn:Hx.
  - by apply build_attrs in Hx.
  - done.
  - by apply assoc_None in Hx.
Qed.

(** * networkx.topological_sort on a well-formed graph *)

Lemma generations_nil fuel G m :
  generations fuel G m [] =
  Some ([], if decide (m = ∅) then TopoDone else TopoUnfeasible).
Proof. by destruct fuel. Qed.

Lemma generations_cons fuel G m z zero :
  generations (S fuel) G m (z :: zero) =
  match process_generation G (z :: zero) (m, []) with
  | None => Some ([], TopoRuntimeError)
  | Some (m', zero') =>
      match generations fuel G m' zero' with
      | None => None
      | Some (rest, fin) => Some ((z :: zero) ++ rest, fin)
      end
  end.
Proof. done. Qed.

Lemma filter_all {A} (P : A → Prop) `{!∀ x, Decision (P x)} (l : list A) :
  (∀ x, x ∈ l → P x) → filter P l = l.
Proof.
  induction l as [|a l IH]; intros Hall; [done|].
  rewrite filter_cons_True by (apply Hall; left).
  f_equal. apply IH. intros x Hx. apply Hall. by right.
Qed.

Lemma length_filter_ne {A} `{EqDecision A} (x : A) (l : list A) :
  NoDup l → x ∈ l → length (filter (λ y, y ≠ x) l) = pred (length l).
Proof.
  induction l as [|a l IH]; intros Hnd Hx; [by apply elem_of_nil in Hx|].
  apply NoDup_cons in Hnd as [Ha Hnd].
  destruct (decide (a = x)) as [->|Hne].
  - rewrite filter_cons_False by (intros H; by apply H).
    rewrite filter_all; [done|]. intros y Hy ->. done.
  - rewrite filter_cons_True by done. simpl.
    apply elem_of_cons in Hx as [->|Hx]; [done|].
    rewrite IH by done. destruct l; [by apply elem_of_nil in Hx|done].
Qed.

Lemma rem_in_0 R v : rem_in R v = 0 ↔ ∀ u, (u, v) ∉ R.
Proof.
  unfold rem_in. rewrite length_zero_iff_nil. split.
  - intros Hnil u Hu.
    assert (Hin : (u, v) ∈ filter (λ e : string * string, e.2 = v) R)
      by (by apply list_elem_of_filter).
    rewrite Hnil in Hin. by apply elem_of_nil in Hin.
  - intros Hno. apply elem_of_nil_inv. intros [u w] [Hw Hin]%list_elem_of_filter.
    simpl in Hw. subst. by apply (Hno u).
Qed.

Lemma rem_in_drop_same R u v :
  NoDup R → (u, v) ∈ R →
  rem_in R v ≠ 0 ∧ rem_in (drop_edge (u, v) R) v = pred (rem_in R v).
Proof.
  intros Hnd Hin. split.
  - rewrite rem_in_0. intros Hno. by apply (Hno u).
  - unfold rem_in, drop_edge. rewrite list_filter_filter.
    rewrite <- (length_filter_ne (u, v)).
    + rewrite list_filter_filter. f_equal. apply list_filter_iff. tauto.
    + by apply NoDup_filter.
    + by apply list_elem_of_filter.
Qed.

Lemma rem_in_drop_other R u v v' :
  v' ≠ v → rem_in (drop_edge (u, v) R) v' = rem_in R v'.
Proof.
  intros Hne. unfold rem_in, drop_edge. rewrite list_filter_filter.
  f_equal. apply list_filter_iff. intros [a b]; simpl.
  split; [tauto|]. intros ->. split; [done|]. intros [= _ ?]. done.
Qed.

Section kahn.

Variable G : DiGraph.
Hypothesis Hwf : graph_wf G.

Lemma dec_child_inv R m base zs u v :
  edge_inv G R m base zs → (u, v) ∈ R →
  ∃ m' zs', dec_child (m, zs) v = Some (m', zs') ∧
            edge_inv G (drop_edge (u, v) R) m' base zs'.
Proof.
  intros (HndR & Hsub & Hm & Hnd & Hz) Hin.
  destruct (rem_in_drop_same R u v HndR Hin) as [Hpos Hpred].
  assert (Hv : v ∈ node_names G).
  { destruct Hwf as (_ & _ & Hends). apply (Hends u v). by apply Hsub. }
  assert (HndR' : NoDup (drop_edge (u, v) R)) by (by apply NoDup_filter).
  assert (Hsub' : ∀ e, e ∈ drop_edge (u, v) R → e ∈ edge_pairs G).
  { intros e [_ He]%list_elem_of_filter. by apply Hsub. }
  assert (Hvz : v ∉ base ++ zs).
  { intros [_ H0]%Hz. done. }
  unfold dec_child. simpl. rewrite Hm. rewrite decide_False by done.
  case_decide as Hd.
  - assert (H0 : rem_in (drop_edge (u, v) R) v = 0) by lia.
    exists (delete v m), (zs ++ [v]). split; [done|].
    split_and!; [done|done| |].
    + intros x. destruct (decide (x = v)) as [->|Hx].
      * rewrite lookup_delete_eq. by rewrite decide_True.
      * rewrite lookup_delete_ne by done. rewrite rem_in_drop_other by done.
        apply Hm.
    + split.
      * rewrite app_assoc. apply NoDup_app. split_and!; [done| |apply NoDup_singleton].
        intros x Hx ->%list_elem_of_singleton. done.
      * intros x. rewrite app_assoc, elem_of_app, list_elem_of_singleton.
        destruct (decide (x = v)) as [->|Hx]; [tauto|].
        rewrite rem_in_drop_other by done. rewrite Hz. tauto.
  - assert (H0 : rem_in (drop_edge (u, v) R) v ≠ 0) by lia.
    exists (<[v := (Z.of_nat (rem_in R v) - 1)%Z]> m), zs. split; [done|].
    split_and!; [done|done| |].
    + intros x. destruct (decide (x = v)) as [->|Hx].
      * rewrite lookup_insert_eq. rewrite decide_False by done.
        f_equal. lia.
      * rewrite lookup_insert_ne by done. rewrite rem_in_drop_other by done.
        apply Hm.
    + split; [done|]. intros x.
      destruct (decide (x = v)) as [->|Hx]; [tauto|].
      rewrite rem_in_drop_other by done. apply Hz.
Qed.

(** One node of the generation: all its outgoing edges are discounted. *)
Lemma dec_children_inv u cs : ∀ R m base zs,
  edge_inv G R m base zs → NoDup cs → (∀ c, c ∈ cs → (u, c) ∈ R) →
  ∃ m' zs', dec_children cs (m, zs) = Some (m', zs') ∧
            edge_inv G (filter (λ e, ¬ (e.1 = u ∧ e.2 ∈ cs)) R) m' base zs'.
Proof.
  induction cs as [|c cs IH]; intros R m base zs Hinv Hnd Hcs; simpl.
  - exists m, zs. split; [done|]. rewrite filter_all; [done|].
    intros e _ [_ []%elem_of_nil].
  - apply NoDup_cons in Hnd as [Hc Hnd].
    destruct (dec_child_inv R m base zs u c Hinv) as (m1 & zs1 & -> & Hinv1).
    { apply Hcs. left. }
    destruct (IH _ m1 base zs1 Hinv1 Hnd) as (m' & zs' & -> & Hinv').
    { intros c' Hc'. apply list_elem_of_filter. split.
      - intros [= ->]. done.
      - apply Hcs. by right. }
    exists m', zs'. split; [done|].
    unfold drop_edge in Hinv'. rewrite list_filter_filter in Hinv'.
    erewrite list_filter_iff; [exact Hinv'|].
    intros [a b]; simpl. rewrite elem_of_cons. split.
    + intros Hn. split; [|intros [= -> ->]]; tauto.
    + intros [Hn Hne] [-> [->|Hb]]; [by apply Hne|tauto].
Qed.

Lemma successors_NoDup u : NoDup (successors G u).
Proof.
  unfold successors. destruct Hwf as (_ & He & _).
  apply NoDup_fmap_2_strong; [|by apply NoDup_filter].
  intros [a b] [a' b'] [Ha _]%list_elem_of_filter [Ha' _]%list_elem_of_filter.
  simpl in *. by intros; simplify_eq.
Qed.

Lemma elem_of_successors u v : v ∈ successors G u ↔ (u, v) ∈ edge_pairs G.
Proof.
  unfold successors. rewrite list_elem_of_fmap. split.
  - intros ([a b] & -> & [Ha Hin]%list_elem_of_filter). simpl in *. by subst.
  - intros Hin. exists (u, v). split; [done|]. by apply list_elem_of_filter.
Qed.

Lemma elem_of_predecessors u v : u ∈ predecessors G v ↔ (u, v) ∈ edge_pairs G.
Proof.
  unfold predecessors. rewrite list_elem_of_fmap. split.
  - intros ([a b] & -> & [Ha Hin]%list_elem_of_filter). simpl in *. by subst.
  - intros Hin. exists (u, v). split; [done|]. by apply list_elem_of_filter.
Qed.

Lemma process_generation_inv gen : ∀ done m base zs,
  edge_inv G (edges_outside G done) m base zs →
  NoDup gen → (∀ x, x ∈ gen → x ∉ done) → (∀ x, x ∈ gen → x ∈ node_names G) →
  ∃ m' zs', process_generation G gen (m, zs) = Some (m', zs') ∧
            edge_inv G (edges_outside G (done ++ gen)) m' base zs'.
Proof.
  induction gen as [|u gen IH]; intros done m base zs Hinv Hnd Hdisj Hnodes; simpl.
  - exists m, zs. by rewrite app_nil_r.
  - apply NoDup_cons in Hnd as [Hu Hnd].
    rewrite decide_True by (apply Hnodes; left).
    destruct (dec_children_inv u (successors G u) _ m base zs Hinv)
      as (m1 & zs1 & -> & Hinv1).
    { apply successors_NoDup. }
    { intros c Hc%elem_of_successors. apply list_elem_of_filter. split; [|done].
      simpl. apply Hdisj. left. }
    assert (Heq : filter (λ e : string * string, ¬ (e.1 = u ∧ e.2 ∈ successors G u))
                    (edges_outside G done) = edges_outside G (done ++ [u])).
    { unfold edges_outside. rewrite list_filter_filter.
      assert (Hext : ∀ l : list (string * string), (∀ e, e ∈ l → e ∈ edge_pairs G) →
                filter (λ e : string * string,
                          ¬ (e.1 = u ∧ e.2 ∈ successors G u) ∧ e.1 ∉ done) l
                = filter (λ e : string * string, e.1 ∉ done ++ [u]) l).
      { induction l as [|[a b] l IHl]; intros Hl; [done|].
        rewrite !filter_cons. rewrite IHl by (intros; apply Hl; by right).
        apply decide_ext. simpl. rewrite elem_of_app, list_elem_of_singleton.
        assert ((a, b) ∈ edge_pairs G) as Hab%elem_of_successors by (apply Hl; left).
        split.
        - intros [Hn Hd] [?| ->]; tauto.
        - intros Hn. split; [intros [-> _]|]; tauto. }
      by apply Hext. }
    rewrite Heq in Hinv1.
    destruct (IH _ m1 base zs1 Hinv1 Hnd) as (m' & zs' & -> & Hinv').
    { intros x Hx [Hd| ->%list_elem_of_singleton]%elem_of_app; [|done].
      revert Hd. apply Hdisj. by right. }
    { intros x Hx. apply Hnodes. by right. }
    exists m', zs'. split; [done|].
    by rewrite <- app_assoc in Hinv'.
Qed.

Lemma topo_sorted_app emitted zero :
  topo_sorted G emitted →
  (∀ z p, z ∈ zero → (p, z) ∈ edge_pairs G → p ∈ emitted) →
  topo_sorted G (emitted ++ zero).
Proof.
  intros Hsorted Hzero i n p Hi Hpn.
  apply lookup_app_Some in Hi as [Hi|[Hlen Hi]].
  - destruct (Hsorted i n p Hi Hpn) as (j & Hj & Hp).
    exists j. split; [done|]. by apply lookup_app_l_Some.
  - assert (Hp : p ∈ emitted).
    { apply (Hzero n p); [|done]. by eapply list_elem_of_lookup_2. }
    apply list_elem_of_lookup in Hp as [j Hj].
    exists j. split; [|by apply lookup_app_l_Some].
    apply lookup_lt_Some in Hj. lia.
Qed.

Lemma released_preds emitted released z p :
  zero_ok G (edges_outside G emitted) released →
  z ∈ released → (p, z) ∈ edge_pairs G → p ∈ emitted.
Proof.
  intros [_ Hz] [_ H0]%Hz Hpz.
  destruct (decide (p ∈ emitted)) as [|Hp]; [done|].
  exfalso. apply (proj1 (rem_in_0 _ _) H0 p).
  by apply list_elem_of_filter.
Qed.

Lemma generations_inv fuel : ∀ emitted zero m order fin,
  loop_inv G emitted zero m →
  generations fuel G m zero = Some (order, fin) →
  fin ≠ TopoRuntimeError ∧ topo_sorted G (emitted ++ order) ∧
  NoDup (emitted ++ order) ∧
  (∀ x, x ∈ emitted ++ order → x ∈ node_names G) ∧
  (fin = TopoDone → ∀ v, v ∈ node_names G → v ∈ emitted ++ order).
Proof.
  induction fuel as [|fuel IH]; intros emitted zero m order fin [Hinv Hsorted] Hgen.
  all: destruct zero as [|z zero]; [rewrite generations_nil in Hgen|try done].
  1,2: injection Hgen as <- <-; rewrite app_nil_r;
       destruct Hinv as (_ & _ & Hm & Hnd & Hz); rewrite app_nil_r in Hnd, Hz;
       (split_and!; [by case_decide|done|done|by intros x [? _]%Hz|]);
       case_decide as Hempty; [|done]; intros _ v Hv; apply Hz; split; [done|];
       specialize (Hm v); rewrite Hempty, lookup_empty in Hm; by case_decide.
  destruct (process_generation_inv (z :: zero) emitted m (emitted ++ z :: zero) [])
    as (m' & zs' & Hproc & Hinv').
  - destruct Hinv as (? & ? & ? & ?). split_and!; try done. by rewrite app_nil_r.
  - destruct Hinv as (_ & _ & _ & Hnd & _). by apply NoDup_app in Hnd as (_ & _ & ?).
  - destruct Hinv as (_ & _ & _ & Hnd & _). apply NoDup_app in Hnd as (_ & Hd & _).
    intros x Hx Hx'. by apply (Hd x).
  - destruct Hinv as (_ & _ & _ & _ & Hz). intros x Hx.
    apply (Hz x), elem_of_app. by right.
  - rewrite generations_cons, Hproc in Hgen.
    destruct (generations fuel G m' zs') as [[rest fin']|] eqn:Hrest; [|done].
    injection Hgen as <- <-.
    assert (Heq : emitted ++ z :: zero ++ rest = (emitted ++ z :: zero) ++ rest)
      by (by rewrite <- app_assoc).
    rewrite Heq. apply (IH (emitted ++ z :: zero) zs' m'); [|done].
    split; [done|]. apply topo_sorted_app; [done|].
    intros x p Hx Hp. destruct Hinv as (_ & _ & _ & Hzero).
    apply (released_preds emitted _ x p Hzero); [|done].
    apply elem_of_app. by right.
Qed.

Lemma in_degree_rem v : in_degree G v = Z.of_nat (rem_in (edge_pairs G) v).
Proof. unfold in_degree, predecessors, rem_in. by rewrite length_fmap. Qed.

Lemma loop_inv_init : loop_inv G [] (zero_indegree0 G) (indegree_map0 G).
Proof.
  destruct Hwf as (Hnames & Hpairs & Hends).
  assert (Hout : edges_outside G [] = edge_pairs G).
  { apply filter_all. intros e _. apply not_elem_of_nil. }
  split; [|intros i n p Hi; done].
  unfold edge_inv. rewrite Hout. split_and!; [done|done| |].
  - intros v. unfold indegree_map0.
    set (l := filter _ _).
    assert (Hl : ∀ x d, (x, d) ∈ l ↔
              (0 < d)%Z ∧ x ∈ node_names G ∧ d = in_degree G x).
    { intros x d. unfold l. rewrite list_elem_of_filter, list_elem_of_fmap. simpl.
      split.
      - intros (Hd & y & [= -> ->] & Hy). done.
      - intros (Hd & Hx & ->). split; [done|]. by exists x. }
    case_decide as H0.
    + apply not_elem_of_list_to_map_1. intros ([x d] & -> & Hin)%list_elem_of_fmap.
      apply Hl in Hin as (Hd & _ & ->). simpl in H0.
      rewrite in_degree_rem in Hd. lia.
    + apply elem_of_list_to_map.
      * apply NoDup_fmap_fst.
        -- intros x d1 d2 (_ & _ & ->)%Hl (_ & _ & ->)%Hl. done.
        -- unfold l. apply NoDup_filter, NoDup_fmap_2_strong; [|done].
           by intros x y _ _ [= ->].
      * apply Hl. rewrite in_degree_rem. split_and!; [lia| |done].
        destruct (decide (v ∈ node_names G)) as [|Hv]; [done|].
        exfalso. apply H0, rem_in_0. intros u Hu. by apply Hends in Hu as [_ ?].
  - split; [by apply NoDup_filter|]. simpl. intros v.
    unfold zero_indegree0. rewrite list_elem_of_filter, in_degree_rem.
    split; intros [? ?]; split; try done; lia.
Qed.

(** What the generator yields on a graph built by networkx: it never fails
    with [RuntimeError], the nodes come out once each and after their
    predecessors, and if it ends normally all nodes came out. *)
Lemma topological_sort_sound order fin :
  topological_sort G = Some (order, fin) →
  fin ≠ TopoRuntimeError ∧ topo_sorted G order ∧ NoDup order ∧
  (∀ x, x ∈ order → x ∈ node_names G) ∧
  (fin = TopoDone → ∀ v, v ∈ node_names G → v ∈ order).
Proof.
  intros Hsort. unfold topological_sort in Hsort.
  by apply (generations_inv _ [] _ _ order fin loop_inv_init Hsort).
Qed.

End kahn.

(** ** The generator terminates *)

Lemma dec_child_size m zs c m' zs' :
  dec_child (m, zs) c = Some (m', zs') →
  size m' + length zs' = size m + length zs.
Proof.
  unfold dec_child. simpl. destruct (m !! c) as [d|] eqn:Hc; [|done].
  assert (Hpos : size m ≠ 0).
  { apply map_size_non_empty_iff. intros ->. by rewrite lookup_empty in Hc. }
  case_decide; intros [= <- <-].
  - rewrite map_size_delete_Some by eauto. rewrite length_app. simpl. lia.
  - by rewrite map_size_insert_Some by eauto.
Qed.

Lemma dec_children_size cs : ∀ m zs m' zs',
  dec_children cs (m, zs) = Some (m', zs') →
  size m' + length zs' = size m + length zs.
Proof.
  induction cs as [|c cs IH]; intros m zs m' zs'; simpl; [by intros [= <- <-]|].
  destruct (dec_child (m, zs) c) as [[m1 zs1]|] eqn:Hc; [|done].
  intros Hrest. apply IH in Hrest. apply dec_child_size in Hc. lia.
Qed.

Lemma process_generation_size G gen : ∀ m zs m' zs',
  process_generation G gen (m, zs) = Some (m', zs') →
  size m' + length zs' = size m + length zs.
Proof.
  induction gen as [|u gen IH]; intros m zs m' zs'; simpl; [by intros [= <- <-]|].
  case_decide; [|done].
  destruct (dec_children (successors G u) (m, zs)) as [[m1 zs1]|] eqn:Hc; [|done].
  intros Hrest. apply IH in Hrest. apply dec_children_size in Hc. lia.
Qed.

Lemma generations_total G fuel : ∀ (m : gmap string Z) zero,
  size m + (if zero is [] then 0 else 1) ≤ fuel →
  is_Some (generations fuel G m zero).
Proof.
  induction fuel as [|fuel IH]; intros m zero Hfuel.
  all: destruct zero as [|z zero]; [rewrite generations_nil; by eexists|try lia].
  rewrite generations_cons.
  destruct (process_generation G (z :: zero) (m, [])) as [[m' zs']|] eqn:Hproc;
    [|by eexists].
  apply process_generation_size in Hproc. simpl in Hproc.
  destruct (IH m' zs') as [[rest fin] ->]; [|by eexists].
  destruct zs'; simpl in *; lia.
Qed.

Lemma size_list_to_map_le {A} (l : list (string * A)) :
  size (list_to_map l : gmap string A) ≤ length l.
Proof.
  induction l as [|[k a] l IH]; simpl; [by rewrite map_size_empty|].
  rewrite map_size_insert. destruct (_ !! k); simpl; lia.
Qed.

Lemma topological_sort_total G : is_Some (topological_sort G).
Proof.
  apply generations_total.
  assert (Hsize : size (indegree_map0 G) ≤ length (g_node G)).
  { unfold indegree_map0. etrans; [apply size_list_to_map_le|].
    etrans; [apply length_filter|].
    rewrite length_map. unfold node_names. by rewrite length_fmap. }
  destruct (zero_indegree0 G); lia.
Qed.

(** * The run *)

Section run.

Context {World : Type}.
Variable post : World → json → gmap string json → (string + json) * World.

Implicit Types (G : DiGraph) (st : run_state (World := World)) (n : string).

Lemma execute_total g p w : is_Some (execute post g p w).
Proof.
  unfold execute. destruct (topological_sort_total (build g)) as [[order fin] ->].
  by eexists.
Qed.

(** ** The paths through one round of the loop *)

Lemma exec_node_step G st n : node_step post G st n (exec_node post G st n).
Proof.
  unfold exec_node, do_call, set_result, set_error.
  destruct (assoc n (g_node G)) as [[node|]|] eqn:Hn;
    [|by apply StepNoAttrs|by apply StepMissing].
  destruct (post (world st) _ _) as [[e|body] w1] eqn:Hp; simpl;
    [|by eapply StepOk].
  destruct (lookup_fallback G n) as [ex|fb] eqn:Hfb;
    [eapply StepAbort; eauto|].
  destruct (truthy fb) eqn:Htruthy; simpl;
    [|eapply StepAbort; eauto 10].
  destruct (post w1 fb _) as [[e2|body] w2] eqn:Hp2; simpl.
  - rewrite <- app_assoc. by eapply StepFailed.
  - rewrite <- app_assoc. by eapply StepRecovered.
Qed.

(** ** What one round of the loop does to the state *)

Lemma exec_node_payload G st n :
  payload (final_state (exec_node post G st n)) = payload st.
Proof. by destruct (exec_node_step G st n). Qed.

Lemma exec_node_calls G st n :
  ∃ t, calls (final_state (exec_node post G st n)) = calls st ++ t ∧
       ∀ ev, ev ∈ t → ev_node ev = n.
Proof.
  destruct (exec_node_step G st n); simpl;
    try (exists []; rewrite app_nil_r; split; [done|];
         by intros ev ?%elem_of_nil);
    (eexists; split; [done|]; intros ev Hev;
     repeat (apply elem_of_cons in Hev as [->|Hev]; [done|]);
     by apply elem_of_nil in Hev).
Qed.

Lemma exec_nodes_payload G l : ∀ st,
  payload (final_state (exec_nodes post G l st)) = payload st.
Proof.
  induction l as [|n l IH]; intros st; simpl; [done|].
  pose proof (exec_node_payload G st n) as Hn.
  destruct (exec_node post G st n); simpl in *; [|done].
  by rewrite IH.
Qed.

Lemma exec_nodes_calls G l : ∀ st,
  ∃ t, calls (final_state (exec_nodes post G l st)) = calls st ++ t ∧
       ∀ ev, ev ∈ t → ev_node ev ∈ l.
Proof.
  induction l as [|n l IH]; intros st; simpl.
  - exists []. rewrite app_nil_r. split; [done|]. by intros ev ?%elem_of_nil.
  - destruct (exec_node_calls G st n) as (t & Ht & Hn).
    destruct (exec_node post G st n) as [st'|e st']; simpl in *.
    + destruct (IH st') as (t' & Ht' & Hl).
      exists (t ++ t'). rewrite Ht', Ht, app_assoc. split; [done|].
      intros ev [Hev|Hev]%elem_of_app; apply elem_of_cons;
        [left; by apply Hn|right; by apply Hl].
    + exists t. split; [done|]. intros ev Hev. apply elem_of_cons. left. by apply Hn.
Qed.

Lemma exec_nodes_app G l1 : ∀ l2 st,
  exec_nodes post G (l1 ++ l2) st =
  match exec_nodes post G l1 st with
  | Return st' => exec_nodes post G l2 st'
  | Raise e st' => Raise e st'
  end.
Proof.
  induction l1 as [|n l1 IH]; intros l2 st; simpl; [done|].
  destruct (exec_node post G st n); [apply IH|done].
Qed.

(** ** The report is determined by the calls

    For each node, what [results] and [errors] hold is fixed by the calls
    made for it: none; a primary call; a failed primary call followed by a
    fallback call with the same payload. *)

Lemma node_calls_app n t1 t2 :
  node_calls n (t1 ++ t2) = node_calls n t1 ++ node_calls n t2.
Proof. apply filter_app. Qed.

Lemma node_calls_same n t : (∀ ev, ev ∈ t → ev_node ev = n) → node_calls n t = t.
Proof. intros Ht. by apply filter_all. Qed.

Lemma node_calls_other n x t :
  (∀ ev, ev ∈ t → ev_node ev = n) → x ≠ n → node_calls x t = [].
Proof.
  intros Ht Hx. apply elem_of_nil_inv. intros ev [Hev Hin]%list_elem_of_filter.
  apply Ht in Hin. congruence.
Qed.

Lemma elem_of_node_calls n t ev : ev ∈ node_calls n t ↔ ev_node ev = n ∧ ev ∈ t.
Proof. unfold node_calls. by rewrite list_elem_of_filter. Qed.

Lemma exec_node_other G st n x :
  x ≠ n →
  let st' := final_state (exec_node post G st n) in
  node_calls x (calls st') = node_calls x (calls st) ∧
  results st' !! x = results st !! x ∧ errors st' !! x = errors st !! x.
Proof.
  intros Hx st'. split.
  - destruct (exec_node_calls G st n) as (t & Ht & Hn). unfold st'.
    rewrite Ht, node_calls_app, (node_calls_other n x t) by done.
    by rewrite app_nil_r.
  - unfold st'. destruct (exec_node_step G st n); simpl;
      rewrite ?lookup_insert_ne by done; done.
Qed.

Lemma exec_node_fresh G st n :
  node_calls n (calls st) = [] → results st !! n = None → errors st !! n = None →
  node_ok n (final_state (exec_node post G st n)).
Proof.
  intros Hcalls Hres Herr. unfold node_ok.
  destruct (exec_node_step G st n); simpl;
    rewrite ?node_calls_app, ?Hcalls; simpl;
    rewrite ?node_calls_same
      by (intros ev Hev; repeat (apply elem_of_cons in Hev as [->|Hev]; [done|]);
          by apply elem_of_nil in Hev);
    simpl; rewrite ?lookup_insert_eq; done.
Qed.

Lemma exec_node_ok G st n :
  node_calls n (calls st) = [] → (∀ x, node_ok x st) →
  ∀ x, node_ok x (final_state (exec_node post G st n)).
Proof.
  intros Hcalls Hok x. destruct (decide (x = n)) as [->|Hx].
  - specialize (Hok n). unfold node_ok in Hok. rewrite Hcalls in Hok.
    destruct Hok. by apply exec_node_fresh.
  - destruct (exec_node_other G st n x Hx) as (Hc & Hr & He).
    specialize (Hok x). unfold node_ok in *. by rewrite Hc, Hr, He.
Qed.

Lemma exec_nodes_ok G l : ∀ st,
  NoDup l → (∀ x, x ∈ l → node_calls x (calls st) = []) → (∀ x, node_ok x st) →
  ∀ x, node_ok x (final_state (exec_nodes post G l st)).
Proof.
  induction l as [|n l IH]; intros st Hnd Hfresh Hok; simpl; [done|].
  apply NoDup_cons in Hnd as [Hn Hnd].
  pose proof (exec_node_ok G st n (Hfresh n (list_elem_of_here _ _)) Hok) as Hok'.
  pose proof (λ x Hx, proj1 (exec_node_other G st n x Hx)) as Hother.
  destruct (exec_node post G st n) as [st'|e st']; simpl in *; [|done].
  apply IH; [done| |done].
  intros x Hx. rewrite Hother by (by intros ->). apply Hfresh. by right.
Qed.

Lemma init_state_ok p (w : World) x : node_ok x (init_state p w).
Proof. unfold node_ok. simpl. by rewrite !lookup_empty. Qed.

Lemma node_ok_recorded x st ev :
  node_ok x st → ev ∈ calls st → ev_node ev = x →
  is_Some (results st !! x) ∨ is_Some (errors st !! x).
Proof.
  unfold node_ok. intros Hok Hev Hx.
  assert (Hin : ev ∈ node_calls x (calls st)) by (by apply elem_of_node_calls).
  destruct (node_calls x (calls st)) as [|c1 [|c2 [|]]]; [ | | |done].
  - by apply elem_of_nil in Hin.
  - destruct Hok as [_ Hok]. destruct (ev_reply c1); destruct Hok as [-> ->]; eauto.
  - destruct Hok as (_ & _ & _ & Hok).
    destruct (ev_reply c1); [|done].
    destruct (ev_reply c2); destruct Hok as [-> ->]; eauto.
Qed.

Lemma node_ok_errors x st :
  node_ok x st →
  is_Some (errors st !! x) ↔
  ∃ ev, ev ∈ calls st ∧ ev_node ev = x ∧ ev_kind ev = Primary ∧ failed ev.
Proof.
  unfold node_ok. intros Hok.
  assert (Hin : ∀ ev, ev ∈ calls st ∧ ev_node ev = x ↔ ev ∈ node_calls x (calls st)).
  { intros ev. rewrite elem_of_node_calls. tauto. }
  destruct (node_calls x (calls st)) as [|c1 [|c2 [|]]]; [ | | |done].
  - destruct Hok as [_ ->]. split; [by intros []|].
    intros (ev & Hev & Hx & _). exfalso.
    by apply (proj1 (elem_of_nil ev)), Hin.
  - destruct Hok as [Hk Hok]. split.
    + intros Herr. exists c1. destruct (proj2 (Hin c1)) as [? ?]; [left|].
      split_and!; try done. destruct (ev_reply c1) eqn:Hr; [by eexists|].
      destruct Hok as [_ Hnone]. rewrite Hnone in Herr. by destruct Herr.
    + intros (ev & Hev & Hx & _ & [msg Hf]).
      assert (ev = c1) as ->.
      { apply list_elem_of_singleton, Hin. done. }
      rewrite Hf in Hok. destruct Hok as [_ ->]. eauto.
  - destruct Hok as (Hk1 & Hk2 & _ & Hok).
    destruct (ev_reply c1) as [e|] eqn:Hr1; [|done].
    split.
    + intros _. exists c1. destruct (proj2 (Hin c1)) as [? ?]; [left|].
      split_and!; try done. by eexists.
    + intros _. destruct (ev_reply c2); destruct Hok as [_ ->]; eauto.
Qed.

(** ** Runs of several rounds *)

Lemma exec_node_return_call G st n st' :
  exec_node post G st n = Return st' →
  ∃ ev, ev ∈ calls st' ∧ ev_node ev = n ∧ ev_kind ev = Primary.
Proof.
  intros Heq. pose proof (exec_node_step G st n) as Hstep. rewrite Heq in Hstep.
  inversion Hstep; subst; simpl; eexists (call n Primary _ _ _);
    (split; [|done]); apply elem_of_app; right; left.
Qed.

Lemma exec_nodes_return_calls G l : ∀ st st',
  exec_nodes post G l st = Return st' →
  ∀ x, x ∈ l → ∃ ev, ev ∈ calls st' ∧ ev_node ev = x ∧ ev_kind ev = Primary.
Proof.
  induction l as [|n l IH]; intros st st' Hrun x Hx; [by apply elem_of_nil in Hx|].
  simpl in Hrun. destruct (exec_node post G st n) as [st1|] eqn:Hn; [|done].
  apply elem_of_cons in Hx as [->|Hx]; [|by eapply IH].
  destruct (exec_node_return_call G st n st1 Hn) as (ev & Hev & Hnode & Hkind).
  exists ev. split; [|done].
  destruct (exec_nodes_calls G l st1) as (t & Ht & _). rewrite Hrun in Ht.
  simpl in Ht. rewrite Ht. apply elem_of_app. by left.
Qed.

Lemma exec_nodes_return_attrs G l : ∀ st st',
  exec_nodes post G l st = Return st' →
  ∀ x, x ∈ l → ∃ node, assoc x (g_node G) = Some (Some node).
Proof.
  induction l as [|n l IH]; intros st st' Hrun x Hx; [by apply elem_of_nil in Hx|].
  simpl in Hrun. destruct (exec_node post G st n) as [st1|] eqn:Hn; [|done].
  apply elem_of_cons in Hx as [->|Hx]; [|by eapply IH].
  pose proof (exec_node_step G st n) as Hstep. rewrite Hn in Hstep.
  inversion Hstep; eauto.
Qed.

(** Where a call of the trace comes from: the run reached its node, and the
    nodes after it in the order have not been started. *)
Lemma exec_nodes_event G l : ∀ st t1 ev t2,
  calls (final_state (exec_nodes post G l st)) = calls st ++ t1 ++ ev :: t2 →
  ∃ l1 l2 s1 ta,
    l = l1 ++ ev_node ev :: l2 ∧ exec_nodes post G l1 st = Return s1 ∧
    calls st ++ t1 = calls s1 ++ ta ∧
    ∀ e, e ∈ ev :: t2 → ev_node e ∈ ev_node ev :: l2.
Proof.
  induction l as [|n l IH]; intros st t1 ev t2 Hcalls; simpl in Hcalls.
  { apply (f_equal length) in Hcalls. rewrite !length_app in Hcalls.
    simpl in Hcalls. lia. }
  destruct (exec_node_calls G st n) as (tn & Htn & Hn).
  destruct (exec_node post G st n) as [st1|ex st1] eqn:Hrun; simpl in *.
  - destruct (exec_nodes_calls G l st1) as (tl & Htl & Hl).
    rewrite Htl, Htn, <- app_assoc in Hcalls. apply app_inv_head in Hcalls.
    apply app_eq_app in Hcalls as [k [[Hk1 Hk]|[-> Hk]]].
    + destruct k as [|ev0 k].
      * (* first call of a later node *)
        simpl in Hk. rewrite app_nil_r in Hk1. subst tn.
        destruct (IH st1 [] ev t2) as (l1 & l2 & s1 & ta & -> & Hs1 & Hta & Hrest).
        { by rewrite Htl, <- Hk. }
        exists (n :: l1), l2, s1, ta. split_and!; [done| | |done].
        -- simpl. by rewrite Hrun.
        -- rewrite <- Hta, Htn. by rewrite !app_nil_r.
      * (* the call belongs to [n] *)
        injection Hk as <- ->. subst tn.
        assert (Hev : ev_node ev = n).
        { apply Hn, elem_of_app. right. left. }
        exists [], l, st, t1. rewrite Hev. split_and!; [done|done|done|].
        intros e [->|[He|He]%elem_of_app]%elem_of_cons; apply elem_of_cons.
        -- by left.
        -- left. apply Hn, elem_of_app. right. by right.
        -- right. by apply Hl.
    + (* the call is among those of later nodes *)
      destruct (IH st1 k ev t2) as (l1 & l2 & s1 & ta & -> & Hs1 & Hta & Hrest).
      { by rewrite Htl, Hk. }
      exists (n :: l1), l2, s1, ta. split_and!; [done| | |done].
      * simpl. by rewrite Hrun.
      * by rewrite <- Hta, Htn, !app_assoc.
  - rewrite Htn in Hcalls. apply app_inv_head in Hcalls. subst tn.
    assert (Hev : ev_node ev = n).
    { apply Hn, elem_of_app. right. left. }
    exists [], l, st, t1. rewrite Hev. split_and!; [done|done|done|].
    intros e He. apply elem_of_cons. left. apply Hn, elem_of_app. by right.
Qed.

Lemma execute_unfold g p w o :
  execute post g p w = Some o →
  ∃ order fin,
    topological_sort (build g) = Some (order, fin) ∧
    final_state o = final_state (exec_nodes post (build g) order (init_state p w)) ∧
    (∀ st, o = Return st →
           fin = TopoDone ∧
           exec_nodes post (build g) order (init_state p w) = Return st).
Proof.
  unfold execute. destruct (topological_sort (build g)) as [[order fin]|]; [|done].
  intros [= <-]. exists order, fin. split; [done|].
  destruct (exec_nodes post (build g) order (init_state p w)) as [st|e st];
    [|split; [done|intros ? [=]]].
  destruct fin; split; try done; intros ? [=]; by subst.
Qed.

Lemma execute_node_ok g p w o x :
  execute post g p w = Some o → node_ok x (final_state o).
Proof.
  intros (order & fin & Hsort & -> & _)%execute_unfold.
  apply (topological_sort_sound _ (build_wf g)) in Hsort as (_ & _ & Hnd & _).
  apply exec_nodes_ok; [done|done|apply init_state_ok].
Qed.

(** * The claims *)

(** C1: a node's endpoint is called only after every predecessor has been
    processed to a terminal outcome.  For any call [ev] of a run and any
    predecessor [pre] of its node: the loop entered the node in a state [s1]
    reached by running the nodes ordered before it, [s1] already records
    [pre] in [results] or [errors] and holds its completed primary call, and
    from [ev] on no call is made for [pre]. *)
Theorem calls_follow_dependencies g p w o t1 ev t2 pre :
  execute post g p w = Some o →
  calls (final_state o) = t1 ++ ev :: t2 →
  pre ∈ predecessors (build g) (ev_node ev) →
  ∃ l1 l2 fin s1 ta,
    topological_sort (build g) = Some (l1 ++ ev_node ev :: l2, fin) ∧
    exec_nodes post (build g) l1 (init_state p w) = Return s1 ∧
    t1 = calls s1 ++ ta ∧
    (is_Some (results s1 !! pre) ∨ is_Some (errors s1 !! pre)) ∧
    (∃ ev', ev' ∈ calls s1 ∧ ev_node ev' = pre ∧ ev_kind ev' = Primary) ∧
    (∀ ev'', ev'' ∈ ev :: t2 → ev_node ev'' ≠ pre).
Proof.
  intros (order & fin & Hsort & Hfinal & _)%execute_unfold Hcalls Hpre.
  rewrite Hfinal in Hcalls.
  destruct (exec_nodes_event (build g) order (init_state p w) t1 ev t2 Hcalls)
    as (l1 & l2 & s1 & ta & -> & Hs1 & Hta & Hrest).
  simpl in Hta.
  pose proof (topological_sort_sound _ (build_wf g) _ _ Hsort)
    as (_ & Hsorted & Hnd & _).
  apply elem_of_predecessors in Hpre.
  assert (Hin : pre ∈ l1).
  { destruct (Hsorted (length l1) (ev_node ev) pre) as (j & Hj & Hlook); [|done|].
    - by rewrite list_lookup_middle.
    - rewrite lookup_app_l in Hlook by done. by eapply list_elem_of_lookup_2. }
  destruct (exec_nodes_return_calls _ _ _ _ Hs1 pre Hin) as (ev' & Hev' & Hnode & Hkind).
  apply NoDup_app in Hnd as (Hnd1 & Hdisj & _).
  exists l1, l2, fin, s1, ta. split_and!; [done|done|done| |by eauto|].
  - apply (node_ok_recorded pre s1 ev'); [|done|done].
    pose proof (exec_nodes_ok (build g) l1 (init_state p w) Hnd1) as Hok.
    rewrite Hs1 in Hok. apply Hok; [done|]. apply init_state_ok.
  - intros ev'' Hev'' <-. by apply (Hdisj _ Hin), Hrest.
Qed.

(** C6: when the primary call of a node and its fallback call both fail,
    these two calls are the only ones made for the node, [results] has no
    entry for it, and [errors] holds the primary failure reason followed by
    "; fallback failed: " and the fallback failure reason. *)
Theorem fallback_failure_is_terminal g p w o evp evf e e2 :
  execute post g p w = Some o →
  evp ∈ calls (final_state o) → evf ∈ calls (final_state o) →
  ev_node evf = ev_node evp →
  ev_kind evp = Primary → ev_kind evf = Fallback →
  ev_reply evp = inl e → ev_reply evf = inl e2 →
  node_calls (ev_node evp) (calls (final_state o)) = [evp; evf] ∧
  results (final_state o) !! ev_node evp = None ∧
  errors (final_state o) !! ev_node evp = Some (e +:+ "; fallback failed: " +:+ e2).
Proof.
  intros Hrun Hp Hf Hnode Hkp Hkf Hrp Hrf.
  pose proof (execute_node_ok g p w o (ev_node evp) Hrun) as Hok.
  assert (Hp' : evp ∈ node_calls (ev_node evp) (calls (final_state o)))
    by (by apply elem_of_node_calls).
  assert (Hf' : evf ∈ node_calls (ev_node evp) (calls (final_state o)))
    by (by apply elem_of_node_calls).
  unfold node_ok in Hok.
  destruct (node_calls _ _) as [|c1 [|c2 [|]]]; [ | | |done].
  - by apply elem_of_nil in Hp'.
  - apply list_elem_of_singleton in Hp', Hf'. congruence.
  - destruct Hok as (Hk1 & Hk2 & _ & Hok).
    assert (evp = c1) as <-.
    { apply elem_of_cons in Hp' as [?| ->%list_elem_of_singleton]; [done|congruence]. }
    assert (evf = c2) as <-.
    { apply elem_of_cons in Hf' as [->|?%list_elem_of_singleton]; [congruence|done]. }
    rewrite Hrp, Hrf in Hok. by destruct Hok.
Qed.

(** C5, as amended: when the primary call of a node fails and its fallback
    call succeeds, the fallback call carries the payload of the primary
    call, [results] holds the fallback's output, and [errors] holds the
    primary failure reason as it is. *)
Theorem fallback_success_report g p w o evp evf e body :
  execute post g p w = Some o →
  evp ∈ calls (final_state o) → evf ∈ calls (final_state o) →
  ev_node evf = ev_node evp →
  ev_kind evp = Primary → ev_kind evf = Fallback →
  ev_reply evp = inl e → ev_reply evf = inr body →
  ev_payload evf = ev_payload evp ∧
  results (final_state o) !! ev_node evp = Some body ∧
  errors (final_state o) !! ev_node evp = Some e.
Proof.
  intros Hrun Hp Hf Hnode Hkp Hkf Hrp Hrf.
  pose proof (execute_node_ok g p w o (ev_node evp) Hrun) as Hok.
  assert (Hp' : evp ∈ node_calls (ev_node evp) (calls (final_state o)))
    by (by apply elem_of_node_calls).
  assert (Hf' : evf ∈ node_calls (ev_node evp) (calls (final_state o)))
    by (by apply elem_of_node_calls).
  unfold node_ok in Hok.
  destruct (node_calls _ _) as [|c1 [|c2 [|]]]; [ | | |done].
  - by apply elem_of_nil in Hp'.
  - apply list_elem_of_singleton in Hp', Hf'. congruence.
  - destruct Hok as (Hk1 & Hk2 & Hpl & Hok).
    assert (evp = c1) as <-.
    { apply elem_of_cons in Hp' as [?| ->%list_elem_of_singleton]; [done|congruence]. }
    assert (evf = c2) as <-.
    { apply elem_of_cons in Hf' as [->|?%list_elem_of_singleton]; [congruence|done]. }
    rewrite Hrp, Hrf in Hok. by destruct Hok.
Qed.

(** C7: in whatever state the loop reaches a node that has attributes, the
    primary call is made, and its payload maps each declared input key to
    the recorded result of the key's source if there is one, else to the
    payload entry under that source, else to null. *)
Theorem inputs_resolved G st n node :
  assoc n (g_node G) = Some (Some node) →
  ∃ reply rest,
    calls (final_state (exec_node post G st n)) =
      calls st ++ call n Primary (n_endpoint node)
                    (resolve_inputs st (n_inputs node)) reply :: rest ∧
    ∀ k, resolve_inputs st (n_inputs node) !! k =
         match n_inputs node !! k with
         | None => None
         | Some v =>
             Some match results st !! v with
                  | Some r => r
                  | None => match payload st !! v with
                            | Some x => x
                            | None => JNull
                            end
                  end
         end.
Proof.
  intros Hn. destruct (exec_node_step G st n); simplify_eq; simpl.
  all: eexists _, _; (split; [done|]).
  all: intros k; unfold resolve_inputs; rewrite lookup_fmap;
    destruct (n_inputs node !! k) as [v|]; simpl; [|done];
    by destruct (results st !! v), (payload st !! v).
Qed.

(** C9: the payload after the run, however it ends, is the payload passed
    in. *)
Theorem execute_preserves_payload g p w :
  ∃ o, execute post g p w = Some o ∧ payload (final_state o) = p.
Proof.
  destruct (execute_total g p w) as [o Ho]. exists o. split; [done|].
  apply execute_unfold in Ho as (order & fin & _ & -> & _).
  by rewrite exec_nodes_payload.
Qed.

(** C10: when [execute] returns a report, every node of the graph (listed
    under "nodes" or named by an edge) is a key of [results] or of [errors],
    and the keys of [errors] are the nodes whose primary call failed. *)
Theorem report_covers_all_nodes g p w st :
  execute post g p w = Some (Return st) →
  (∀ n, (n ∈ spec_names g ∨ ∃ e, e ∈ edges g ∧ (e_from e = n ∨ e_to e = n)) →
        is_Some (results st !! n) ∨ is_Some (errors st !! n)) ∧
  (∀ n, is_Some (errors st !! n) ↔
        ∃ ev, ev ∈ calls st ∧ ev_node ev = n ∧ ev_kind ev = Primary ∧ failed ev).
Proof.
  intros Hrun. pose proof (λ x, execute_node_ok g p w _ x Hrun) as Hok.
  simpl in Hok. split; [|intros n; by apply node_ok_errors].
  intros n Hn%build_node_names.
  apply execute_unfold in Hrun as (order & fin & Hsort & _ & Hret).
  destruct (Hret st eq_refl) as [-> Hexec].
  apply (topological_sort_sound _ (build_wf g)) in Hsort as (_ & _ & _ & _ & Hall).
  destruct (exec_nodes_return_calls _ _ _ _ Hexec n (Hall eq_refl n Hn))
    as (ev & Hev & Hnode & _).
  by apply (node_ok_recorded n st ev).
Qed.

(** ** Determinism *)

Section deterministic.

Variable f : json → gmap string json → string + json.
Hypothesis Hdet : ∀ w url inputs, (post w url inputs).1 = f url inputs.

Lemma post_deterministic w url inputs : ∃ w', post w url inputs = (f url inputs, w').
Proof.
  specialize (Hdet w url inputs). destruct (post w url inputs) as [r w'].
  simpl in Hdet. subst. by eexists.
Qed.

Lemma exec_node_deterministic G s1 s2 n :
  visible s1 = visible s2 →
  same_outcome (exec_node post G s1 n) (exec_node post G s2 n).
Proof.
  destruct s1 as [r1 e1 p1 c1 w1], s2 as [r2 e2 p2 c2 w2].
  intros [= -> -> -> ->]. unfold exec_node, do_call, resolve_inputs. simpl.
  destruct (assoc n (g_node G)) as [[node|]|]; [|done|done].
  set (inputs := _ <$> n_inputs node).
  destruct (post_deterministic w1 (n_endpoint node) inputs) as [w1' ->].
  destruct (post_deterministic w2 (n_endpoint node) inputs) as [w2' ->].
  destruct (f (n_endpoint node) inputs) as [e|body]; [|done]. simpl.
  destruct (lookup_fallback G n) as [ex|fb]; [done|].
  destruct (truthy fb); [|done].
  destruct (post_deterministic w1' fb inputs) as [w1'' ->].
  destruct (post_deterministic w2' fb inputs) as [w2'' ->].
  by destruct (f fb inputs).
Qed.

Lemma exec_nodes_deterministic G l : ∀ s1 s2,
  visible s1 = visible s2 →
  same_outcome (exec_nodes post G l s1) (exec_nodes post G l s2).
Proof.
  induction l as [|n l IH]; intros s1 s2 Hvis; simpl; [done|].
  destruct (exec_node_deterministic G s1 s2 n Hvis) as [Hr Hv].
  destruct (exec_node post G s1 n), (exec_node post G s2 n); try done.
  by apply IH.
Qed.

(** C8: against services whose reply is a fixed function of the endpoint
    and the payload, two runs on the same graph and payload end the same
    way with equal [results] and [errors] (and the same calls), whatever
    the state of the services at their start. *)
Theorem execute_reruns_agree g p w1 w2 :
  ∃ o1 o2,
    execute post g p w1 = Some o1 ∧ execute post g p w2 = Some o2 ∧
    raised o1 = raised o2 ∧
    results (final_state o1) = results (final_state o2) ∧
    errors (final_state o1) = errors (final_state o2) ∧
    calls (final_state o1) = calls (final_state o2).
Proof.
  unfold execute.
  destruct (topological_sort_total (build g)) as [[order fin] ->].
  eexists _, _. split; [done|]. split; [done|].
  destruct (exec_nodes_deterministic (build g) order
              (init_state p w1) (init_state p w2) eq_refl) as [Hr Hv].
  destruct (exec_nodes post (build g) order (init_state p w1)),
           (exec_nodes post (build g) order (init_state p w2));
    simplify_eq/=; [by destruct fin|done].
Qed.

End deterministic.

(** ** Failure without a fallback *)

Lemma node_ok_untouched x st :
  node_ok x st → (∀ ev, ev ∈ calls st → ev_node ev ≠ x) →
  results st !! x = None ∧ errors st !! x = None.
Proof.
  unfold node_ok. intros Hok Hfresh.
  assert (node_calls x (calls st) = []) as Hnone; [|by rewrite Hnone in Hok].
  apply elem_of_nil_inv. intros ev [Hn Hev]%elem_of_node_calls.
  by apply (Hfresh ev).
Qed.

Lemma reached_state G l p w s1 :
  NoDup l → exec_nodes post G l (init_state p w) = Return s1 →
  (∀ x, node_ok x s1) ∧ (∀ ev, ev ∈ calls s1 → ev_node ev ∈ l).
Proof.
  intros Hnd Hrun. split.
  - pose proof (exec_nodes_ok G l (init_state p w) Hnd) as Hok.
    rewrite Hrun in Hok. apply Hok; [done|]. apply init_state_ok.
  - destruct (exec_nodes_calls G l (init_state p w)) as (t & Ht & Hl).
    rewrite Hrun in Ht. simpl in Ht. by rewrite Ht.
Qed.

(** C2, as amended: when the run reaches a node whose primary call fails
    and the fallback looked up for it is empty, [errors] gets the failure
    reason under the node's name, [results] has no entry for it, and the
    run ends there with the 502 error: no report is returned, and the nodes
    ordered after it, dependent or not, are neither called nor recorded. *)
Theorem failure_without_fallback_aborts g p w l1 n l2 fin s1 node e w1 fb :
  topological_sort (build g) = Some (l1 ++ n :: l2, fin) →
  exec_nodes post (build g) l1 (init_state p w) = Return s1 →
  assoc n (g_node (build g)) = Some (Some node) →
  post (world s1) (n_endpoint node) (resolve_inputs s1 (n_inputs node))
    = (inl e, w1) →
  lookup_fallback (build g) n = inr fb → truthy fb = false →
  ∃ st,
    execute post g p w =
      Some (Raise (HTTPException 502 (n +:+ " failed and no fallback available")) st) ∧
    errors st !! n = Some e ∧ results st !! n = None ∧
    calls st = calls s1 ++ [call n Primary (n_endpoint node)
                              (resolve_inputs s1 (n_inputs node)) (inl e)] ∧
    ∀ x, x ∈ l2 →
         results st !! x = None ∧ errors st !! x = None ∧
         node_calls x (calls st) = [].
Proof.
  intros Hsort Hs1 Hnode Hpost Hfb Hfalsy.
  pose proof (topological_sort_sound _ (build_wf g) _ _ Hsort) as (_ & _ & Hnd & _).
  apply NoDup_app in Hnd as (Hnd1 & Hdisj & [Hn2 Hnd2]%NoDup_cons).
  destruct (reached_state _ _ _ _ _ Hnd1 Hs1) as [Hok Hcalls].
  assert (Hfresh : ∀ x, x ∈ n :: l2 → ∀ ev, ev ∈ calls s1 → ev_node ev ≠ x).
  { intros x Hx ev Hev%Hcalls <-. by apply (Hdisj (ev_node ev)). }
  eexists. split_and!.
  - unfold execute. rewrite Hsort, exec_nodes_app, Hs1. simpl.
    unfold exec_node, do_call. rewrite Hnode, Hpost. simpl.
    by rewrite Hfb, Hfalsy.
  - simpl. by rewrite lookup_insert_eq.
  - simpl. apply (node_ok_untouched n s1); [done|]. apply Hfresh. left.
  - done.
  - intros x Hx. simpl.
    assert (Hxn : x ≠ n) by (by intros ->).
    destruct (node_ok_untouched x s1 (Hok x)) as [Hr He].
    { apply Hfresh. by right. }
    rewrite lookup_insert_ne by done. split_and!; [done|done|].
    apply elem_of_nil_inv.
    intros ev [Hev [Hin| ->%list_elem_of_singleton]%elem_of_app]%elem_of_node_calls.
    + apply (Hfresh x) in Hin; [done|by right].
    + done.
Qed.

(** ** Graphs that validation would reject *)

Lemma sorted_path g order u v :
  topo_sorted (build g) order → tc (edge_rel g) u v →
  ∀ i, order !! i = Some v → ∃ j, j < i ∧ order !! j = Some u.
Proof.
  intros Hsorted Hpath. induction Hpath as [x y Hxy|x y z Hxy Hyz IH]; intros i Hi.
  - apply (Hsorted i y x Hi). by apply build_edge_pairs.
  - destruct (IH i Hi) as (j & Hj & Hy).
    destruct (Hsorted j y x Hy) as (k & Hk & Hx); [by apply build_edge_pairs|].
    exists k. split; [lia|done].
Qed.

(** C4, as amended: a graph with a cycle or with an edge that names a node
    missing from "nodes" never yields a report: the run ends with an
    exception. *)
Theorem invalid_graph_never_reports g p w :
  has_cycle g ∨ has_dangling_edge g →
  ∃ ex st, execute post g p w = Some (Raise ex st).
Proof.
  intros Hbad. destruct (execute_total g p w) as [[st|ex st] Hrun]; [|by eauto].
  exfalso.
  apply execute_unfold in Hrun as (order & fin & Hsort & _ & Hret).
  destruct (Hret st eq_refl) as [-> Hexec].
  pose proof (topological_sort_sound _ (build_wf g) _ _ Hsort)
    as (_ & Hsorted & Hnd & _ & Hall).
  specialize (Hall eq_refl).
  destruct Hbad as [[u Hcycle]|(e & He & Hunknown)].
  - assert (Hu : u ∈ node_names (build g)).
    { assert (∃ y, edge_rel g u y) as [y Hy] by (inversion Hcycle; eauto).
      apply build_edge_pairs in Hy.
      destruct (build_wf g) as (_ & _ & Hends). by apply Hends in Hy as [? _]. }
    apply Hall, list_elem_of_lookup in Hu as [i Hi].
    destruct (sorted_path g order u u Hsorted Hcycle i Hi) as (j & Hj & Hu).
    pose proof (NoDup_lookup _ _ _ _ Hnd Hi Hu). lia.
  - assert (∃ x, x ∈ node_names (build g) ∧ x ∉ spec_names g) as (x & Hin & Hx).
    { destruct Hunknown as [Hx|Hx]; eexists; (split; [|exact Hx]);
        apply build_node_names; right; exists e; tauto. }
    destruct (exec_nodes_return_attrs _ _ _ _ Hexec x (Hall x Hin)) as [node Hnode].
    rewrite (build_assoc_unknown g x Hin Hx) in Hnode. done.
Qed.

End run.

(** * The node's own fallback entry *)

Lemma strip_fst (l : list (string * option node_spec)) :
  (strip_entry <$> l).*1 = l.*1.
Proof. rewrite <- list_fmap_compose. by apply list_fmap_ext. Qed.

Lemma strip_graph_names G : node_names (strip_graph G) = node_names G.
Proof. apply strip_fst. Qed.

Lemma strip_merge_attr o a :
  strip_fallback (merge_attr o a) = merge_attr (strip_fallback <$> o) (strip_fallback a).
Proof. unfold strip_fallback, merge_attr. simpl. by destruct o. Qed.

Lemma strip_add_node name a G :
  strip_graph (add_node name a G) = add_node name (strip_fallback a) (strip_graph G).
Proof.
  unfold add_node. rewrite strip_graph_names.
  case_decide; unfold strip_graph; simpl; f_equal.
  - change (map ?f ?l) with (f <$> l). rewrite <- !list_fmap_compose.
    apply list_fmap_ext. intros _ [k o] _. simpl.
    case_decide; unfold strip_entry; simpl; [|done].
    by rewrite strip_merge_attr.
  - by rewrite fmap_app.
Qed.

Lemma strip_touch_node n l :
  strip_entry <$> touch_node n l
  = touch_node n (strip_entry <$> l).
Proof.
  unfold touch_node. rewrite strip_fst. case_decide; [done|]. by rewrite fmap_app.
Qed.

Lemma strip_add_edge u v fb G :
  strip_graph (add_edge u v fb G) = add_edge u v fb (strip_graph G).
Proof.
  unfold add_edge, strip_graph. simpl. by rewrite !strip_touch_node.
Qed.

Lemma strip_build g : build (strip_own_fallback g) = strip_graph (build g).
Proof.
  rewrite !build_unfold. simpl.
  assert (Hnodes : ∀ l G, add_nodes (strip_fallback <$> l) (strip_graph G)
                          = strip_graph (add_nodes l G)).
  { induction l as [|n l IH]; intros G; simpl; [done|].
    by rewrite <- IH, strip_add_node. }
  assert (Hedges : ∀ l G, add_edges l (strip_graph G) = strip_graph (add_edges l G)).
  { induction l as [|e l IH]; intros G; simpl; [done|].
    by rewrite <- IH, strip_add_edge. }
  by rewrite <- Hedges, <- Hnodes.
Qed.

Lemma strip_process_generation G gen : ∀ st,
  process_generation (strip_graph G) gen st = process_generation G gen st.
Proof.
  induction gen as [|u gen IH]; intros st; simpl; [done|].
  rewrite strip_graph_names. case_decide; [|done].
  change (successors (strip_graph G) u) with (successors G u).
  destruct (dec_children _ _); [apply IH|done].
Qed.

Lemma strip_generations G fuel : ∀ m zero,
  generations fuel (strip_graph G) m zero = generations fuel G m zero.
Proof.
  induction fuel as [|fuel IH]; intros m [|z zero]; try done.
  rewrite !generations_cons, strip_process_generation.
  destruct (process_generation _ _ _) as [[m' zero']|]; [|done]. by rewrite IH.
Qed.

Lemma strip_topological_sort G :
  topological_sort (strip_graph G) = topological_sort G.
Proof.
  unfold topological_sort, indegree_map0, zero_indegree0.
  rewrite strip_generations, strip_graph_names. simpl. by rewrite length_fmap.
Qed.

Lemma strip_assoc n (l : list (string * option node_spec)) :
  assoc n (strip_entry <$> l)
  = option_map (option_map strip_fallback) (assoc n l).
Proof.
  induction l as [|[k o] l IH]; simpl; [done|]. by case_decide.
Qed.

Section own_fallback.

Context {World : Type}.
Variable post : World → json → gmap string json → (string + json) * World.

Lemma strip_exec_node G st n :
  exec_node post (strip_graph G) st n = exec_node post G st n.
Proof.
  unfold exec_node. simpl. rewrite strip_assoc.
  by destruct (assoc n (g_node G)) as [[node|]|].
Qed.

Lemma strip_exec_nodes G l : ∀ st,
  exec_nodes post (strip_graph G) l st = exec_nodes post G l st.
Proof.
  induction l as [|n l IH]; intros st; simpl; [done|].
  rewrite strip_exec_node. destruct (exec_node post G st n); [apply IH|done].
Qed.

Lemma fallback_call_has_edge G st n :
  (∀ ev, ev ∈ calls st → ev_kind ev = Fallback → in_edges G (ev_node ev) ≠ []) →
  ∀ ev, ev ∈ calls (final_state (exec_node post G st n)) →
        ev_kind ev = Fallback → in_edges G (ev_node ev) ≠ [].
Proof.
  intros Hst ev.
  assert (Hlook : ∀ fb, lookup_fallback G n = inr fb → truthy fb = true →
                        in_edges G n ≠ []).
  { intros fb Hfb Htruthy Hnil. unfold lookup_fallback in Hfb.
    rewrite Hnil in Hfb. by simplify_eq. }
  destruct (exec_node_step post G st n); simpl; try apply Hst.
  all: intros [Hev|Hev]%elem_of_app; [by apply Hst|].
  all: repeat (apply elem_of_cons in Hev as [->|Hev]; [simpl; try done; eauto|]).
  all: by apply elem_of_nil in Hev.
Qed.

Lemma fallback_calls_have_edge G l : ∀ st,
  (∀ ev, ev ∈ calls st → ev_kind ev = Fallback → in_edges G (ev_node ev) ≠ []) →
  ∀ ev, ev ∈ calls (final_state (exec_nodes post G l st)) →
        ev_kind ev = Fallback → in_edges G (ev_node ev) ≠ [].
Proof.
  induction l as [|n l IH]; intros st Hst; simpl; [done|].
  pose proof (fallback_call_has_edge G st n Hst) as Hn.
  destruct (exec_node post G st n); simpl in *; [by apply IH|done].
Qed.

(** C3, as amended: the node's own fallback entry is never consulted: the
    run of a request is the run of the same request without these
    entries; and a fallback call is made only for a node that has an
    inbound edge. *)
Theorem own_fallback_never_consulted g p w :
  execute post (strip_own_fallback g) p w = execute post g p w ∧
  ∀ o ev, execute post g p w = Some o → ev ∈ calls (final_state o) →
          ev_kind ev = Fallback → in_edges (build g) (ev_node ev) ≠ [].
Proof.
  split.
  - unfold execute. rewrite strip_build, strip_topological_sort.
    destruct (topological_sort (build g)) as [[order fin]|]; [|done].
    by rewrite strip_exec_nodes.
  - intros o ev (order & fin & _ & -> & _)%execute_unfold.
    apply fallback_calls_have_edge. by intros ev' ?%elem_of_nil.
Qed.

End own_fallback.

Ltac run := vm_compute; reflexivity.
Ltac in_list := vm_compute; repeat constructor.

(** ** Instances of the theorems *)

Lemma calls_follow_dependencies_witness :
  ∃ l1 l2 fin s1 ta,
    topological_sort (build Examples.g_chain)
      = Some (l1 ++ ev_node Examples.call_B :: l2, fin) ∧
    exec_nodes Examples.stub (build Examples.g_chain) l1 (init_state ∅ 0) = Return s1 ∧
    [Examples.call_A] = calls s1 ++ ta ∧
    (is_Some (results s1 !! "A") ∨ is_Some (errors s1 !! "A")) ∧
    (∃ ev', ev' ∈ calls s1 ∧ ev_node ev' = "A" ∧ ev_kind ev' = Primary) ∧
    (∀ ev'', ev'' ∈ [Examples.call_B] → ev_node ev'' ≠ "A").
Proof.
  apply (calls_follow_dependencies Examples.stub Examples.g_chain ∅ 0
           (Examples.outcome_of Examples.g_chain)
           [Examples.call_A] Examples.call_B [] "A").
  - run.
  - run.
  - in_list.
Defined.

Lemma fallback_failure_is_terminal_witness :
  let o := Examples.outcome_of (Examples.g_fallback "http://down2") in
  let evf := Examples.call_fallback "http://down2" (inl "timeout") in
  node_calls "fallback" (calls (final_state o)) = [Examples.call_primary; evf] ∧
  results (final_state o) !! "fallback" = None ∧
  errors (final_state o) !! "fallback" = Some "boom; fallback failed: timeout".
Proof.
  apply (fallback_failure_is_terminal Examples.stub
           (Examples.g_fallback "http://down2") ∅ 0
           (Examples.outcome_of (Examples.g_fallback "http://down2"))
           Examples.call_primary
           (Examples.call_fallback "http://down2" (inl "timeout"))
           "boom" "timeout").
  - run.
  - in_list.
  - in_list.
  - reflexivity.
  - reflexivity.
  - reflexivity.
  - reflexivity.
  - reflexivity.
Defined.

Lemma fallback_success_report_witness :
  let o := Examples.outcome_of (Examples.g_fallback "http://fb") in
  let evf := Examples.call_fallback "http://fb" (inr (JObj [("ok", JBool true)])) in
  ev_payload evf = ev_payload Examples.call_primary ∧
  results (final_state o) !! "fallback" = Some (JObj [("ok", JBool true)]) ∧
  errors (final_state o) !! "fallback" = Some "boom".
Proof.
  apply (fallback_success_report Examples.stub
           (Examples.g_fallback "http://fb") ∅ 0
           (Examples.outcome_of (Examples.g_fallback "http://fb"))
           Examples.call_primary
           (Examples.call_fallback "http://fb" (inr (JObj [("ok", JBool true)])))
           "boom" (JObj [("ok", JBool true)])).
  - run.
  - in_list.
  - in_list.
  - reflexivity.
  - reflexivity.
  - reflexivity.
  - reflexivity.
  - reflexivity.
Defined.

Lemma inputs_resolved_witness :
  let G := build Examples.g_chain in
  let st := final_state (exec_nodes Examples.stub G ["A"] (init_state ∅ 0)) in
  let node := Examples.mk_node "B" "http://echo" [("x", "A")] None in
  ∃ reply rest,
    calls (final_state (exec_node Examples.stub G st "B")) =
      calls st ++ call "B" Primary (n_endpoint node)
                    (resolve_inputs st (n_inputs node)) reply :: rest ∧
    ∀ k, resolve_inputs st (n_inputs node) !! k =
         match n_inputs node !! k with
         | None => None
         | Some v =>
             Some match results st !! v with
                  | Some r => r
                  | None => match payload st !! v with
                            | Some x => x
                            | None => JNull
                            end
                  end
         end.
Proof.
  intros G st node. apply (inputs_resolved Examples.stub G st "B" node). run.
Defined.

Lemma report_covers_all_nodes_witness :
  let st := final_state (Examples.outcome_of Examples.g_chain) in
  (∀ n, (n ∈ spec_names Examples.g_chain ∨
         ∃ e, e ∈ edges Examples.g_chain ∧ (e_from e = n ∨ e_to e = n)) →
        is_Some (results st !! n) ∨ is_Some (errors st !! n)) ∧
  (∀ n, is_Some (errors st !! n) ↔
        ∃ ev, ev ∈ calls st ∧ ev_node ev = n ∧ ev_kind ev = Primary ∧ failed ev).
Proof.
  apply (report_covers_all_nodes Examples.stub Examples.g_chain ∅ 0). run.
Defined.

Lemma execute_reruns_agree_witness :
  ∃ o1 o2,
    execute Examples.stub Examples.g_chain ∅ 0 = Some o1 ∧
    execute Examples.stub Examples.g_chain ∅ 7 = Some o2 ∧
    raised o1 = raised o2 ∧
    results (final_state o1) = results (final_state o2) ∧
    errors (final_state o1) = errors (final_state o2) ∧
    calls (final_state o1) = calls (final_state o2).
Proof.
  apply (execute_reruns_agree Examples.stub Examples.stub_reply).
  intros w url inputs. reflexivity.
Defined.

Lemma failure_without_fallback_aborts_witness :
  ∃ st,
    execute Examples.stub Examples.g_branches ∅ 0 =
      Some (Raise (HTTPException 502 "A failed and no fallback available") st) ∧
    errors st !! "A" = Some "boom" ∧ results st !! "A" = None ∧
    calls st = [call "A" Primary (JStr "http://down") ∅ (inl "boom")] ∧
    ∀ x, x ∈ ["B"; "C"] →
         results st !! x = None ∧ errors st !! x = None ∧
         node_calls x (calls st) = [].
Proof.
  apply (failure_without_fallback_aborts Examples.stub Examples.g_branches ∅ 0
           [] "A" ["B"; "C"] TopoDone (init_state ∅ 0)
           (Examples.mk_node "A" "http://down" [] None) "boom" 1 JNull).
  - run.
  - reflexivity.
  - run.
  - run.
  - run.
  - reflexivity.
Defined.

Lemma invalid_graph_never_reports_witness :
  ∃ ex st, execute Examples.stub Examples.g_cycle ∅ 0 = Some (Raise ex st).
Proof.
  apply (invalid_graph_never_reports Examples.stub Examples.g_cycle ∅ 0).
  left. exists "B". apply (tc_l _ "B" "C" "B"); [|apply tc_once]; in_list.
Defined.

Lemma own_fallback_never_consulted_witness :
  let g := Examples.g_fallback "http://fb" in
  execute Examples.stub (strip_own_fallback Examples.g_own) ∅ 0
    = execute Examples.stub Examples.g_own ∅ 0 ∧
  in_edges (build g) "fallback" ≠ [].
Proof.
  intros g. split.
  - apply (proj1 (own_fallback_never_consulted Examples.stub Examples.g_own ∅ 0)).
  - apply (proj2 (own_fallback_never_consulted Examples.stub g ∅ 0)
             (Examples.outcome_of g)
             (Examples.call_fallback "http://fb" (inr (JObj [("ok", JBool true)])))).
    + run.
    + in_list.
    + reflexivity.
Defined.

(** The first example of the specification: A -> B with B.inputs = {x: "A"},
    A answering {"v": 1} and B echoing its input. *)
Lemma chain_report :
  ∃ st,
    execute Examples.stub Examples.g_chain ∅ 0 = Some (Return st) ∧
    results st = {[ "A" := JObj [("v", JNum 1)];
                    "B" := JObj [("x", JObj [("v", JNum 1)])] ]} ∧
    errors st = ∅ ∧
    calls st = [Examples.call_A; Examples.call_B].
Proof. eexists. split_and!; run. Qed.

(** ** Runs that contradict the specification *)

(** Against C2: "A" fails and has no fallback; the run ends with the 502
    error after that single call: the independent node "B" is never called,
    the dependent node "C" gets no entry in [errors], and there is no
    report. *)
Lemma failure_aborts_independent_branch :
  ∃ st,
    execute Examples.stub Examples.g_branches ∅ 0 =
      Some (Raise (HTTPException 502 "A failed and no fallback available") st) ∧
    calls st = [call "A" Primary (JStr "http://down") ∅ (inl "boom")] ∧
    results st = ∅ ∧ errors st = {[ "A" := "boom" ]}.
Proof. eexists. split_and!; run. Qed.

(** Against C3: "A" fails and carries a fallback of its own, which is not
    attempted: the only call is the primary one, and the run ends with the
    502 error. *)
Lemma own_fallback_not_attempted :
  n_fallback <$> nodes Examples.g_own = [Some (JStr "http://fb")] ∧
  ∃ st,
    execute Examples.stub Examples.g_own ∅ 0 =
      Some (Raise (HTTPException 502 "A failed and no fallback available") st) ∧
    calls st = [call "A" Primary (JStr "http://down") ∅ (inl "boom")].
Proof. split; [done|]. eexists. split; run. Qed.

(** Against C4: a duplicated name is not rejected (the run returns a report);
    with a cycle, and with an edge to an unknown node, the error comes only
    after the call of "A" has been made. *)
Lemma invalid_graphs_are_executed :
  (has_duplicate_name Examples.g_dup ∧
   ∃ st, execute Examples.stub Examples.g_dup ∅ 0 = Some (Return st) ∧
         calls st = [call "A" Primary (JStr "http://echo") ∅ (inr (JObj []))]) ∧
  (has_cycle Examples.g_cycle ∧
   ∃ st, execute Examples.stub Examples.g_cycle ∅ 0
           = Some (Raise NetworkXUnfeasible st) ∧
         calls st = [Examples.call_A]) ∧
  (has_dangling_edge Examples.g_dangling ∧
   ∃ st, execute Examples.stub Examples.g_dangling ∅ 0
           = Some (Raise (KeyError "endpoint") st) ∧
         calls st = [Examples.call_A]).
Proof.
  split_and!.
  - intros Hnd. vm_compute in Hnd. apply NoDup_cons in Hnd as [Hin _].
    apply Hin. left.
  - eexists. split; run.
  - exists "B". apply (tc_l _ "B" "C" "B"); [|apply tc_once]; in_list.
  - eexists. split; run.
  - exists (Examples.mk_edge "A" "X" JNull). split; [in_list|].
    right. vm_compute. intros Hin. apply list_elem_of_singleton in Hin. done.
  - eexists. split; run.
Qed.

(** Against C5: the fallback of "fallback" succeeds, and [errors] holds the
    bare failure reason of the primary call; nothing marks it as recovered. *)
Lemma recovered_error_not_annotated :
  ∃ st,
    execute Examples.stub (Examples.g_fallback "http://fb") ∅ 0 = Some (Return st) ∧
    calls st = [Examples.call_A; Examples.call_primary;
                Examples.call_fallback "http://fb" (inr (JObj [("ok", JBool true)]))] ∧
    results st !! "fallback" = Some (JObj [("ok", JBool true)]) ∧
    errors st !! "fallback" = Some "boom" ∧
    Examples.mentions "recovered" "boom" = false.
Proof. eexists. split_and!; run. Qed.

(** * Further properties of the code *)

(** ** Repeated entries: [add_node] and [add_edge] update in place *)

Lemma merge_attr_None a : merge_attr None a = a.
Proof. by destruct a as [? ? ? []]. Qed.

Lemma assoc_add_node name a G x :
  assoc x (g_node (add_node name a G)) =
  if decide (x = name)
  then Some (Some (merge_attr (mjoin (assoc x (g_node G))) a))
  else assoc x (g_node G).
Proof.
  unfold add_node, node_names. case_decide as Hin; simpl.
  - assert (Hmap : ∀ l : list (string * option node_spec),
      assoc x (map (λ na : string * option node_spec,
                      if decide (na.1 = name)
                      then (na.1, Some (merge_attr na.2 a)) else na) l)
      = match assoc x l with
        | Some o => Some (if decide (x = name) then Some (merge_attr o a) else o)
        | None => None
        end).
    { induction l as [|[k o] l IH]; simpl; [done|].
      destruct (decide (k = name)) as [->|Hk]; simpl;
        destruct (decide (x = name)) as [->|Hx]; simpl;
        rewrite ?decide_True, ?decide_False by done; simpl; try done.
      destruct (decide (x = k)); [done|by rewrite IH]. }
    rewrite Hmap. destruct (assoc x (g_node G)) as [o|] eqn:Hx.
    + by case_decide.
    + case_decide; [|done]. subst. by apply assoc_None in Hx.
  - rewrite assoc_app. simpl. case_decide.
    + subst. apply assoc_None in Hin. rewrite Hin. simpl.
      rewrite ?decide_True by done. by rewrite ?merge_attr_None.
    + rewrite ?decide_False by done. by destruct (assoc x (g_node G)).
Qed.

Lemma add_nodes_snoc l n G :
  add_nodes (l ++ [n]) G = add_node (n_name n) n (add_nodes l G).
Proof. unfold add_nodes. by rewrite foldl_snoc. Qed.

Lemma add_edges_snoc l e G :
  add_edges (l ++ [e]) G = add_edge (e_from e) (e_to e) (e_fallback e) (add_edges l G).
Proof. unfold add_edges. by rewrite foldl_snoc. Qed.

Lemma add_nodes_last x l : ∀ G,
  match last_node x l with
  | Some nd =>
      ∃ a, assoc x (g_node (add_nodes l G)) = Some (Some a) ∧
           n_name a = x ∧ n_endpoint a = n_endpoint nd ∧ n_inputs a = n_inputs nd
  | None => assoc x (g_node (add_nodes l G)) = assoc x (g_node G)
  end.
Proof.
  induction l as [|n l IH] using rev_ind; intros G; [done|].
  unfold last_node. rewrite filter_app, add_nodes_snoc, assoc_add_node.
  destruct (decide (n_name n = x)) as [Hn|Hn].
  - rewrite filter_cons_True, filter_nil, last_snoc by done.
    rewrite decide_True by done. eexists. split; [done|]. by subst.
  - rewrite filter_cons_False, filter_nil, app_nil_r by done.
    rewrite decide_False by done. apply IH.
Qed.

Lemma add_edges_assoc_Some l : ∀ G x a,
  assoc x (g_node G) = Some a → assoc x (g_node (add_edges l G)) = Some a.
Proof.
  induction l as [|e l IH]; intros G x a Hx; simpl; [done|].
  apply IH. unfold add_edge. simpl. rewrite !assoc_touch_node. by rewrite Hx.
Qed.

(** X1: when several entries of "nodes" carry the same name, the node runs
    with the endpoint and the inputs of the last of them. *)
Theorem duplicate_name_last_wins g x nd :
  last_node x (nodes g) = Some nd →
  ∃ a, assoc x (g_node (build g)) = Some (Some a) ∧
       n_name a = x ∧ n_endpoint a = n_endpoint nd ∧ n_inputs a = n_inputs nd.
Proof.
  intros Hlast. pose proof (add_nodes_last x (nodes g) empty_graph) as Hnodes.
  rewrite Hlast in Hnodes. destruct Hnodes as (a & Ha & Hrest).
  exists a. split; [|done]. rewrite build_unfold. by apply add_edges_assoc_Some.
Qed.

Lemma add_edge_data u v fb G :
  graph_wf G →
  ∀ p d, (p, d) ∈ g_edge (add_edge u v fb G) ↔
         if decide (p = (u, v)) then d = fb else (p, d) ∈ g_edge G.
Proof.
  intros (_ & Hnd & _) p d. unfold add_edge, edge_pairs. simpl.
  case_decide as Hin.
  - change (map ?f ?l) with (f <$> l). rewrite list_elem_of_fmap. split.
    + intros ([p' d'] & Heq & Hin'). simpl in Heq.
      repeat case_decide; simplify_eq/=; done.
    + case_decide as Hp.
      * intros ->. subst p. apply list_elem_of_fmap in Hin as ([p' d'] & Heq & Hin).
        simpl in Heq. subst p'. exists (u, v, d'). simpl.
        by rewrite decide_True.
      * intros Hin'. exists (p, d). simpl. by rewrite decide_False.
  - rewrite elem_of_app, list_elem_of_singleton. case_decide as Hp.
    + subst p. split; [|intros ->; by right].
      intros [Hin'|[= ->]]; [|done]. destruct Hin.
      by apply (list_elem_of_fmap_2 fst) in Hin'.
    + split; [|by left]. intros [?|[= ? ?]]; [done|]. by subst.
Qed.

Lemma add_nodes_wf l : ∀ G, graph_wf G → graph_wf (add_nodes l G).
Proof.
  induction l as [|n l IH]; intros G HG; simpl; [done|]. by apply IH, add_node_wf.
Qed.

Lemma add_edges_wf l : ∀ G, graph_wf G → graph_wf (add_edges l G).
Proof.
  induction l as [|e l IH]; intros G HG; simpl; [done|]. by apply IH, add_edge_wf.
Qed.

Lemma add_edges_last u v l : ∀ G,
  graph_wf G →
  ∀ d, ((u, v), d) ∈ g_edge (add_edges l G) ↔
       match last_edge u v l with
       | Some e => d = e_fallback e
       | None => ((u, v), d) ∈ g_edge G
       end.
Proof.
  induction l as [|e l IH] using rev_ind; intros G HG d; [done|].
  unfold last_edge.
  rewrite filter_app, add_edges_snoc, add_edge_data by (by apply add_edges_wf).
  destruct (decide (e_from e = u ∧ e_to e = v)) as [[Hu Hv]|Hne].
  - rewrite filter_cons_True, filter_nil, last_snoc by done.
    by rewrite decide_True by (by subst).
  - rewrite filter_cons_False, filter_nil, app_nil_r by done.
    rewrite decide_False by (intros [= ? ?]; by apply Hne).
    by apply IH.
Qed.

(** X2: when several entries of "edges" join the same two nodes, the graph
    has one edge between them, and its fallback is that of the last entry,
    also when that entry has none. *)
Theorem duplicate_edge_last_wins g u v e :
  last_edge u v (edges g) = Some e →
  ∀ d, ((u, v), d) ∈ g_edge (build g) ↔ d = e_fallback e.
Proof.
  intros Hlast d. rewrite build_unfold.
  rewrite (add_edges_last u v (edges g)) by apply add_nodes_wf, empty_graph_wf.
  by rewrite Hlast.
Qed.

(** ** The topological sort yields every node of an acyclic graph *)

Section kahn_complete.

Variable G : DiGraph.
Hypothesis Hwf : graph_wf G.

Lemma rem_in_pos R v : rem_in R v ≠ 0 → ∃ u, (u, v) ∈ R.
Proof.
  unfold rem_in. intros Hpos.
  destruct (filter (λ e : string * string, e.2 = v) R) as [|[u w] l] eqn:Hf; [done|].
  assert (Hin : (u, w) ∈ filter (λ e : string * string, e.2 = v) R)
    by (rewrite Hf; left).
  apply list_elem_of_filter in Hin as [Hw Hin]. simpl in Hw. subst. by exists u.
Qed.

(** When the loop ends: a node whose predecessors were all yielded was
    yielded itself, and [NetworkXUnfeasible] means that a node is left. *)
Lemma generations_closed fuel : ∀ emitted zero m order fin,
  loop_inv G emitted zero m →
  generations fuel G m zero = Some (order, fin) →
  (∀ v, v ∈ node_names G →
        (∀ u, (u, v) ∈ edge_pairs G → u ∈ emitted ++ order) →
        v ∈ emitted ++ order) ∧
  (fin = TopoUnfeasible → ∃ v, v ∈ node_names G ∧ v ∉ emitted ++ order).
Proof.
  induction fuel as [|fuel IH]; intros emitted zero m order fin [Hinv Hsorted] Hgen.
  all: destruct zero as [|z zero]; [rewrite generations_nil in Hgen|try done].
  1,2: injection Hgen as <- <-; rewrite app_nil_r;
       destruct Hinv as (_ & Hsub & Hm & Hnd & Hz); rewrite app_nil_r in Hnd, Hz;
       (split;
        [intros v Hv Hpreds; apply Hz; split; [done|]; apply rem_in_0;
         intros u [Hu Huv]%list_elem_of_filter; by apply Hu, Hpreds
        |case_decide as Hempty; [done|]; intros _;
         apply map_choose in Hempty as (v & d & Hv);
         rewrite Hm in Hv; case_decide as Hrem; [done|];
         destruct (rem_in_pos _ _ Hrem) as [u Hu]; exists v; split;
         [destruct Hwf as (_ & _ & Hends); apply Hsub in Hu;
          by apply (Hends u v) in Hu as [_ ?]
         |by intros [_ ?]%Hz]]).
  destruct (process_generation_inv G Hwf (z :: zero) emitted m (emitted ++ z :: zero) [])
    as (m' & zs' & Hproc & Hinv').
  - destruct Hinv as (? & ? & ? & ?). split_and!; try done. by rewrite app_nil_r.
  - destruct Hinv as (_ & _ & _ & Hnd & _). by apply NoDup_app in Hnd as (_ & _ & ?).
  - destruct Hinv as (_ & _ & _ & Hnd & _). apply NoDup_app in Hnd as (_ & Hd & _).
    intros x Hx Hx'. by apply (Hd x).
  - destruct Hinv as (_ & _ & _ & _ & Hz). intros x Hx.
    apply (Hz x), elem_of_app. by right.
  - rewrite generations_cons, Hproc in Hgen.
    destruct (generations fuel G m' zs') as [[rest fin']|] eqn:Hrest; [|done].
    injection Hgen as <- <-.
    assert (Heq : emitted ++ z :: zero ++ rest = (emitted ++ z :: zero) ++ rest)
      by (by rewrite <- app_assoc).
    rewrite Heq. apply (IH (emitted ++ z :: zero) zs' m'); [|done].
    split; [done|]. apply topo_sorted_app; [done|].
    intros x p Hx Hp. destruct Hinv as (_ & _ & _ & Hzero).
    apply (released_preds G emitted _ x p Hzero); [|done].
    apply elem_of_app. by right.
Qed.

Lemma tc_flip_edge x y : tc (flip (graph_edge G)) x y → tc (graph_edge G) y x.
Proof.
  induction 1 as [x y Hxy|x y z Hxy _ IH]; [by apply tc_once|].
  eapply tc_r; [exact IH|exact Hxy].
Qed.

Lemma topological_sort_complete order fin :
  (∀ x, ¬ tc (graph_edge G) x x) →
  topological_sort G = Some (order, fin) →
  fin = TopoDone ∧ ∀ v, v ∈ node_names G → v ∈ order.
Proof.
  intros Hacyclic Hsort.
  pose proof (topological_sort_sound G Hwf order fin Hsort) as (Hrt & _).
  unfold topological_sort in Hsort.
  destruct (generations_closed _ [] _ _ order fin (loop_inv_init G Hwf) Hsort)
    as [Hclosed Hleft]. simpl in Hclosed, Hleft.
  assert (Hall : ∀ v, v ∈ node_names G → v ∈ order).
  { intros v.
    assert (Hsn : sn (flip (graph_edge G)) v).
    { apply tc_finite_sn.
      - intros x Hx. by apply (Hacyclic x), tc_flip_edge.
      - exists (node_names G). intros y Hy.
        destruct Hwf as (_ & _ & Hends).
        induction Hy as [x y Hxy|x y z _ _ IH]; [|done].
        by apply Hends in Hxy as [? _]. }
    induction Hsn as [v _ IH]. intros Hv. apply Hclosed; [done|].
    intros u Huv. apply IH; [done|].
    destruct Hwf as (_ & _ & Hends). by apply Hends in Huv as [? _]. }
  split; [|done]. destruct fin; [done| |done].
  destruct (Hleft eq_refl) as (v & Hv & Hnot). destruct Hnot. by apply Hall.
Qed.

End kahn_complete.

(** ** More about the run *)

Lemma build_assoc_listed g x :
  x ∈ spec_names g → ∃ a, assoc x (g_node (build g)) = Some (Some a).
Proof.
  intros (n & -> & Hn)%list_elem_of_fmap.
  pose proof (add_nodes_last (n_name n) (nodes g) empty_graph) as Hlast.
  destruct (last_node (n_name n) (nodes g)) as [nd|] eqn:Hnd.
  - destruct Hlast as (a & Ha & _). exists a. rewrite build_unfold.
    by apply add_edges_assoc_Some.
  - apply last_None in Hnd.
    assert (Hin : n ∈ filter (λ m, n_name m = n_name n) (nodes g))
      by (by apply list_elem_of_filter).
    rewrite Hnd in Hin. by apply elem_of_nil in Hin.
Qed.

Lemma tc_build_edges g x y :
  tc (graph_edge (build g)) x y ↔ tc (edge_rel g) x y.
Proof.
  split; apply tc_congruence with (f := id); intros u v; unfold graph_edge, edge_rel;
    by rewrite build_edge_pairs.
Qed.

Section more_run.

Context {World : Type}.
Variable post : World → json → gmap string json → (string + json) * World.

Implicit Types (G : DiGraph) (st : run_state (World := World)) (n : string).

Lemma execute_eq g p w o :
  execute post g p w = Some o →
  ∃ order fin,
    topological_sort (build g) = Some (order, fin) ∧
    o = match exec_nodes post (build g) order (init_state p w) with
        | Raise e st => Raise e st
        | Return st =>
            match fin with
            | TopoDone => Return st
            | TopoUnfeasible => Raise NetworkXUnfeasible st
            | TopoRuntimeError => Raise RuntimeError st
            end
        end.
Proof.
  unfold execute. destruct (topological_sort (build g)) as [[order fin]|]; [|done].
  intros [= <-]. by exists order, fin.
Qed.

Lemma exec_nodes_other G l x : ∀ st,
  x ∉ l →
  let st' := final_state (exec_nodes post G l st) in
  results st' !! x = results st !! x ∧ errors st' !! x = errors st !! x.
Proof.
  induction l as [|n l IH]; intros st Hx; simpl; [done|].
  apply not_elem_of_cons in Hx as [Hn Hx].
  destruct (exec_node_other post G st n x Hn) as (_ & Hr & He).
  destruct (exec_node post G st n) as [st1|ex st1]; simpl in *; [|done].
  destruct (IH st1 Hx) as [Hr' He']. by rewrite Hr', He'.
Qed.

(** Where a call of the trace was made: in the round of its node, entered
    in a state reached by running the nodes ordered before it. *)
Lemma exec_nodes_call_origin G l : ∀ st ev,
  ev ∈ calls (final_state (exec_nodes post G l st)) →
  ev ∈ calls st ∨
  ∃ l1 l2 s1 t,
    l = l1 ++ ev_node ev :: l2 ∧ exec_nodes post G l1 st = Return s1 ∧
    calls (final_state (exec_node post G s1 (ev_node ev))) = calls s1 ++ t ∧ ev ∈ t.
Proof.
  induction l as [|n l IH]; intros st ev Hev; simpl in Hev; [by left|].
  destruct (exec_node_calls post G st n) as (tn & Htn & Hn).
  assert (Hhere : ev ∈ calls st ++ tn →
    ev ∈ calls st ∨
    ∃ l1 l2 s1 t,
      n :: l = l1 ++ ev_node ev :: l2 ∧ exec_nodes post G l1 st = Return s1 ∧
      calls (final_state (exec_node post G s1 (ev_node ev))) = calls s1 ++ t ∧ ev ∈ t).
  { intros [?|Hin]%elem_of_app; [by left|right].
    exists [], l, st, tn. rewrite (Hn ev Hin). done. }
  destruct (exec_node post G st n) as [st1|ex st1] eqn:Hrun; simpl in *.
  - destruct (IH st1 ev Hev) as [Hin|(l1 & l2 & s1 & t & -> & Hs1 & Ht & Hin)].
    + apply Hhere. by rewrite <- Htn.
    + right. exists (n :: l1), l2, s1, t. split_and!; [done| |done|done].
      simpl. by rewrite Hrun.
  - apply Hhere. by rewrite <- Htn.
Qed.

(** The same for [execute], with what is known of the state [s1] in which
    the round started. *)
Lemma execute_call_origin g p w o ev :
  execute post g p w = Some o → ev ∈ calls (final_state o) →
  ∃ l1 l2 fin s1 t,
    topological_sort (build g) = Some (l1 ++ ev_node ev :: l2, fin) ∧
    exec_nodes post (build g) l1 (init_state p w) = Return s1 ∧
    calls (final_state (exec_node post (build g) s1 (ev_node ev))) = calls s1 ++ t ∧
    ev ∈ t ∧
    final_state o = final_state (exec_nodes post (build g) (ev_node ev :: l2) s1) ∧
    (∀ x, node_ok x s1) ∧
    (∀ e, e ∈ calls s1 → ev_node e ∈ l1) ∧
    NoDup (l1 ++ ev_node ev :: l2) ∧
    topo_sorted (build g) (l1 ++ ev_node ev :: l2).
Proof.
  intros Hrun Hev.
  destruct (execute_unfold post g p w o Hrun) as (order & fin & Hsort & Hfinal & _).
  rewrite Hfinal in Hev.
  destruct (exec_nodes_call_origin _ _ _ _ Hev)
    as [[]%elem_of_nil|(l1 & l2 & s1 & t & -> & Hs1 & Ht & Hin)].
  pose proof (topological_sort_sound _ (build_wf g) _ _ Hsort)
    as (_ & Hsorted & Hnd & _).
  pose proof Hnd as (Hnd1 & _ & _)%NoDup_app.
  destruct (reached_state post _ _ _ _ _ Hnd1 Hs1) as [Hok Hcalls].
  exists l1, l2, fin, s1, t. split_and!; try done.
  by rewrite Hfinal, exec_nodes_app, Hs1.
Qed.

(** A run ends with an exception only because a round did. *)
Lemma exec_nodes_raise_cause G l : ∀ st ex st',
  exec_nodes post G l st = Raise ex st' →
  ∃ l1 n l2 s1,
    l = l1 ++ n :: l2 ∧ exec_nodes post G l1 st = Return s1 ∧
    exec_node post G s1 n = Raise ex st'.
Proof.
  induction l as [|n l IH]; intros st ex st' Hrun; simpl in Hrun; [done|].
  destruct (exec_node post G st n) as [st1|ex1 st1] eqn:Hn.
  - destruct (IH _ _ _ Hrun) as (l1 & m & l2 & s1 & -> & Hs1 & Hm).
    exists (n :: l1), m, l2, s1. split_and!; [done| |done]. simpl. by rewrite Hn.
  - injection Hrun as <- <-. by exists [], n, l, st.
Qed.

(** What [lookup_fallback] can yield, by the inbound edges of the node. *)
Lemma lookup_fallback_cases G n :
  match in_edges G n with
  | [] => lookup_fallback G n = inr JNull
  | e :: _ =>
      if decide (n = "fallback")
      then lookup_fallback G n = json_get e.2 "fallback"
      else lookup_fallback G n = inl (KeyError n)
  end.
Proof.
  unfold lookup_fallback, edge_data_getitem.
  destruct (in_edges G n) as [|e rest]; [done|]. by case_decide.
Qed.

Lemma usable_fallback G n fb :
  lookup_fallback G n = inr fb → truthy fb = true →
  n = "fallback" ∧
  ∃ e rest fields,
    in_edges G n = e :: rest ∧ e.2 = JObj fields ∧ assoc "fallback" fields = Some fb.
Proof.
  intros Hfb Htruthy. pose proof (lookup_fallback_cases G n) as Hcases.
  destruct (in_edges G n) as [|e rest].
  - rewrite Hfb in Hcases. by simplify_eq.
  - case_decide as Hn; [|by rewrite Hfb in Hcases]. split; [done|].
    rewrite Hfb in Hcases. unfold json_get in Hcases.
    destruct (e.2) as [| | | | |fields] eqn:He; try done.
    exists e, rest, fields. split_and!; [done|done|].
    destruct (assoc "fallback" fields); by simplify_eq/=.
Qed.

(** A failed primary call of a node that is not named "fallback" ends the
    run. *)
Lemma primary_failure_aborts g p w o ev e :
  execute post g p w = Some o →
  ev ∈ calls (final_state o) →
  ev_kind ev = Primary → ev_reply ev = inl e → ev_node ev ≠ "fallback" →
  ∃ st,
    o = Raise match in_edges (build g) (ev_node ev) with
              | [] => HTTPException 502
                        (ev_node ev +:+ " failed and no fallback available")
              | _ :: _ => KeyError (ev_node ev)
              end st ∧
    errors st !! ev_node ev = Some e ∧ results st !! ev_node ev = None ∧
    last (calls st) = Some ev.
Proof.
  intros Hrun Hev Hkind Hreply Hname.
  destruct (execute_call_origin g p w o ev Hrun Hev)
    as (l1 & l2 & fin & s1 & t & Hsort & Hs1 & Ht & Hin & _ & Hok & Hcalls & Hnd & _).
  apply execute_eq in Hrun as (order & fin' & Hsort' & ->).
  rewrite Hsort in Hsort'. injection Hsort' as <- <-.
  rewrite exec_nodes_app, Hs1. simpl.
  assert (Hfresh : results s1 !! ev_node ev = None).
  { apply (node_ok_untouched (ev_node ev) s1 (Hok _)).
    intros e' He' Heq. apply NoDup_app in Hnd as (_ & Hdisj & _).
    apply (Hdisj (ev_node e')); [by apply Hcalls|]. rewrite Heq. left. }
  pose proof (lookup_fallback_cases (build g) (ev_node ev)) as Hcases.
  destruct (exec_node_step post (build g) s1 (ev_node ev)) as
    [?|?|node body w1 ? ?|node e0 w1 ex ? ? Hex|node e0 w1 fb body w2 ? ? Hfb Htr ?
    |node e0 w1 fb e2 w2 ? ? Hfb Htr ?]; simpl in Ht.
  - rewrite <- (app_nil_r (calls s1)) in Ht at 1. apply app_inv_head in Ht.
    subst t. by apply elem_of_nil in Hin.
  - rewrite <- (app_nil_r (calls s1)) in Ht at 1. apply app_inv_head in Ht.
    subst t. by apply elem_of_nil in Hin.
  - apply app_inv_head in Ht. subst t. apply list_elem_of_singleton in Hin.
    rewrite Hin in Hreply. done.
  - apply app_inv_head in Ht. subst t. apply list_elem_of_singleton in Hin.
    assert (e0 = e) as -> by (rewrite Hin in Hreply; simpl in Hreply; congruence).
    eexists. split_and!.
    + f_equal. destruct (in_edges (build g) (ev_node ev)) as [|e1 rest].
      * destruct Hex as [Hex|(fb & _ & _ & ->)]; [|done]. congruence.
      * rewrite decide_False in Hcases by done.
        destruct Hex as [Hex|(fb & Hfb & _)]; congruence.
    + simpl. by rewrite lookup_insert_eq.
    + done.
    + simpl. rewrite last_snoc. congruence.
  - destruct (usable_fallback _ _ _ Hfb Htr) as [? _]. done.
  - destruct (usable_fallback _ _ _ Hfb Htr) as [? _]. done.
Qed.

End more_run.

Lemma in_edges_nil G n : in_edges G n = [] ↔ ∀ u, (u, n) ∉ edge_pairs G.
Proof.
  unfold in_edges, edge_pairs. split.
  - intros Hnil u ([[u' n'] d] & [= -> ->] & Hin)%list_elem_of_fmap.
    assert (Hf : (u', n', d) ∈ filter (λ e : string * string * json, e.1.2 = n')
                                  (g_edge G)) by (by apply list_elem_of_filter).
    rewrite Hnil in Hf. by apply elem_of_nil in Hf.
  - intros Hno. apply elem_of_nil_inv. intros [[u n'] d] [Hn Hin]%list_elem_of_filter.
    simpl in Hn. subst n'. apply (Hno u).
    by apply (list_elem_of_fmap_2 fst) in Hin.
Qed.

Lemma in_edges_request g n :
  in_edges (build g) n = [] ↔ n ∉ (spec_pairs g).*2.
Proof.
  rewrite in_edges_nil. split.
  - intros Hno ([u n'] & -> & Hin)%list_elem_of_fmap.
    by apply (Hno u), build_edge_pairs.
  - intros Hno u Hin%build_edge_pairs. apply Hno.
    by apply (list_elem_of_fmap_2 snd) in Hin.
Qed.

Lemma done_means_acyclic g order :
  topological_sort (build g) = Some (order, TopoDone) → ¬ has_cycle g.
Proof.
  intros Hsort [u Hcycle].
  pose proof (topological_sort_sound _ (build_wf g) _ _ Hsort)
    as (_ & Hsorted & Hnd & _ & Hall).
  assert (Hu : u ∈ node_names (build g)).
  { assert (∃ y, edge_rel g u y) as [y Hy] by (inversion Hcycle; eauto).
    apply build_edge_pairs in Hy.
    destruct (build_wf g) as (_ & _ & Hends). by apply Hends in Hy as [? _]. }
  apply (Hall eq_refl), list_elem_of_lookup in Hu as [i Hi].
  destruct (sorted_path g order u u Hsorted Hcycle i Hi) as (j & Hj & Hu).
  pose proof (NoDup_lookup _ _ _ _ Hnd Hi Hu). lia.
Qed.

Section extras.

Context {World : Type}.
Variable post : World → json → gmap string json → (string + json) * World.

Implicit Types (G : DiGraph) (st : run_state (World := World)) (n : string).

(** X3: when the loop reaches a node that an edge names but "nodes" does not
    list, the run ends with KeyError('endpoint'), in the state it was in: no
    call is made for the node and nothing is recorded for it. *)
Theorem unlisted_node_raises g p w l1 n l2 fin s1 :
  topological_sort (build g) = Some (l1 ++ n :: l2, fin) →
  exec_nodes post (build g) l1 (init_state p w) = Return s1 →
  n ∉ spec_names g →
  execute post g p w = Some (Raise (KeyError "endpoint") s1).
Proof.
  intros Hsort Hs1 Hn.
  pose proof (topological_sort_sound _ (build_wf g) _ _ Hsort) as (_ & _ & _ & Hin & _).
  assert (Hnode : assoc n (g_node (build g)) = Some None).
  { apply build_assoc_unknown; [|done]. apply Hin, elem_of_app. right. left. }
  unfold execute. rewrite Hsort, exec_nodes_app, Hs1. simpl.
  unfold exec_node. by rewrite Hnode.
Qed.

(** X4: a node that lies on a cycle, or that can be reached from one, is
    never called and gets no entry in [results] or [errors]. *)
Theorem cycle_nodes_never_run g p w o u v :
  execute post g p w = Some o →
  tc (edge_rel g) u u → rtc (edge_rel g) u v →
  node_calls v (calls (final_state o)) = [] ∧
  results (final_state o) !! v = None ∧ errors (final_state o) !! v = None.
Proof.
  intros Hrun Hcycle Hreach.
  pose proof (execute_node_ok post g p w o v Hrun) as Hok.
  apply execute_unfold in Hrun as (order & fin & Hsort & Hfinal & _).
  pose proof (topological_sort_sound _ (build_wf g) _ _ Hsort)
    as (_ & Hsorted & Hnd & _).
  assert (Hv : v ∉ order).
  { intros [i Hi]%list_elem_of_lookup.
    destruct (sorted_path g order u v Hsorted (tc_rtc_r _ _ _ Hcycle Hreach) i Hi)
      as (j & _ & Hj).
    destruct (sorted_path g order u u Hsorted Hcycle j Hj) as (j' & Hlt & Hj').
    pose proof (NoDup_lookup _ _ _ _ Hnd Hj Hj'). lia. }
  assert (Hfresh : ∀ ev, ev ∈ calls (final_state o) → ev_node ev ≠ v).
  { intros ev Hev <-. rewrite Hfinal in Hev.
    destruct (exec_nodes_calls post (build g) order (init_state p w)) as (t & Ht & Hl).
    rewrite Ht in Hev. simpl in Hev. by apply Hv, Hl. }
  split; [|by apply node_ok_untouched].
  apply elem_of_nil_inv. intros ev [Hn Hev]%elem_of_node_calls. by apply (Hfresh ev).
Qed.

(** A run in which no call fails and every node is listed returns from the
    loop. *)
Lemma clean_run_returns g p w order fin :
  ¬ has_dangling_edge g →
  topological_sort (build g) = Some (order, fin) →
  (∀ ev, ev ∈ calls (final_state (exec_nodes post (build g) order (init_state p w))) →
         ¬ failed ev) →
  ∃ st, exec_nodes post (build g) order (init_state p w) = Return st.
Proof.
  intros Hdangling Hsort Hclean.
  destruct (exec_nodes post (build g) order (init_state p w)) as [st|ex st] eqn:Hrun;
    [by eauto|]. exfalso.
  destruct (exec_nodes_raise_cause post _ _ _ _ _ Hrun)
    as (l1 & n & l2 & s1 & -> & Hs1 & Hn).
  pose proof (topological_sort_sound _ (build_wf g) _ _ Hsort) as (_ & _ & _ & Hin & _).
  assert (Hlisted : n ∈ spec_names g).
  { assert (Hnode : n ∈ node_names (build g))
      by (apply Hin, elem_of_app; right; left).
    apply build_node_names in Hnode as [?|(e & He & Hend)]; [done|].
    destruct (decide (n ∈ spec_names g)) as [|Hnot]; [done|].
    destruct Hdangling. exists e. split; [done|]. destruct Hend as [-> | ->]; tauto. }
  destruct (build_assoc_listed g n Hlisted) as [a Ha].
  pose proof (exec_node_step post (build g) s1 n) as Hstep. rewrite Hn in Hstep.
  inversion Hstep; subst; simplify_eq.
  apply (Hclean (call n Primary (n_endpoint a)
                   (resolve_inputs s1 (n_inputs a)) (inl e))).
  - simpl. apply elem_of_app. right. left.
  - by eexists.
Qed.

(** X5: on a request without a cycle whose edges name only listed nodes, a
    run in which no call fails returns a report: [errors] is empty, and each
    listed node was called exactly once and has the reply as its result. *)
Theorem acyclic_run_reports g p w o :
  ¬ has_cycle g → ¬ has_dangling_edge g →
  execute post g p w = Some o →
  (∀ ev, ev ∈ calls (final_state o) → ¬ failed ev) →
  ∃ st, o = Return st ∧ errors st = ∅ ∧
        ∀ n, n ∈ spec_names g →
             ∃ ev body, node_calls n (calls st) = [ev] ∧ ev_kind ev = Primary ∧
                        ev_reply ev = inr body ∧ results st !! n = Some body.
Proof.
  intros Hacyclic Hdangling Hrun Hclean.
  pose proof (λ x, execute_node_ok post g p w o x Hrun) as Hok.
  destruct (execute_unfold post g p w o Hrun) as (order & fin & Hsort & Hfinal & _).
  apply execute_eq in Hrun as (order' & fin' & Hsort' & Ho).
  rewrite Hsort in Hsort'. injection Hsort' as <- <-.
  rewrite Hfinal in Hclean.
  destruct (clean_run_returns g p w order fin Hdangling Hsort Hclean) as [st Hst].
  destruct (topological_sort_complete _ (build_wf g) order fin) as [-> Hall]; [|done|].
  { intros x Hx%tc_build_edges. apply Hacyclic. by exists x. }
  rewrite Hst in Ho, Hclean. subst o. simpl in *.
  exists st. split; [done|]. split.
  - apply map_eq. intros n. rewrite lookup_empty. apply eq_None_not_Some.
    intros (ev & Hev & _ & _ & Hfailed)%(node_ok_errors n st (Hok n)).
    by apply (Hclean ev).
  - intros n Hn.
    assert (Hin : n ∈ order) by (apply Hall, build_node_names; by left).
    destruct (exec_nodes_return_calls post _ _ _ _ Hst n Hin) as (ev & Hev & Hnode & _).
    assert (Hev' : ev ∈ node_calls n (calls st)) by (by apply elem_of_node_calls).
    specialize (Hok n). unfold node_ok in Hok.
    assert (Hsub : ∀ c, c ∈ node_calls n (calls st) → ¬ failed c).
    { intros c [_ Hc]%elem_of_node_calls. by apply Hclean. }
    destruct (node_calls n (calls st)) as [|c1 [|c2 [|]]]; [ | | |done].
    + by apply elem_of_nil in Hev'.
    + destruct Hok as [Hk Hok]. destruct (ev_reply c1) as [e|body] eqn:Hr.
      * destruct (Hsub c1); [left|by eexists].
      * exists c1, body. by destruct Hok.
    + destruct Hok as (_ & _ & _ & Hok). destruct (ev_reply c1) as [e|body] eqn:Hr; [|done].
      destruct (Hsub c1); [left|by eexists].
Qed.


(** X7: a failed primary call of a node that is not named "fallback" is the
    last call of the run, which ends with an exception: KeyError(name) when
    some edge of the request points to the node, the 502 error when none
    does.  [errors] holds the failure reason and [results] has no entry for
    the node. *)
Theorem failed_call_ends_run g p w o ev e :
  execute post g p w = Some o →
  ev ∈ calls (final_state o) →
  ev_kind ev = Primary → ev_reply ev = inl e → ev_node ev ≠ "fallback" →
  ∃ st,
    o = Raise (if decide (ev_node ev ∈ (spec_pairs g).*2)
               then KeyError (ev_node ev)
               else HTTPException 502
                      (ev_node ev +:+ " failed and no fallback available")) st ∧
    errors st !! ev_node ev = Some e ∧ results st !! ev_node ev = None ∧
    last (calls st) = Some ev.
Proof.
  intros Hrun Hev Hkind Hreply Hname.
  destruct (primary_failure_aborts post g p w o ev e Hrun Hev Hkind Hreply Hname)
    as (st & -> & Herr & Hres & Hlast).
  exists st. split; [|done]. f_equal.
  pose proof (in_edges_request g (ev_node ev)) as Hreq.
  destruct (in_edges (build g) (ev_node ev)) as [|e1 rest].
  - rewrite decide_False; [done|]. by apply Hreq.
  - rewrite decide_True; [done|].
    destruct (decide (ev_node ev ∈ (spec_pairs g).*2)) as [|Hnot]; [done|].
    by apply Hreq in Hnot.
Qed.

(** X8: a fallback call is made only for a node named "fallback", and its
    endpoint is the "fallback" entry of the object that the first inbound
    edge of that node carries as its fallback. *)
Theorem fallback_call_only_for_fallback_node g p w o ev :
  execute post g p w = Some o →
  ev ∈ calls (final_state o) → ev_kind ev = Fallback →
  ev_node ev = "fallback" ∧
  ∃ e rest fields,
    in_edges (build g) "fallback" = e :: rest ∧ e.2 = JObj fields ∧
    assoc "fallback" fields = Some (ev_url ev) ∧ truthy (ev_url ev) = true.
Proof.
  intros Hrun Hev Hkind.
  destruct (execute_call_origin post g p w o ev Hrun Hev)
    as (l1 & l2 & fin & s1 & t & _ & _ & Ht & Hin & _).
  destruct (exec_node_step post (build g) s1 (ev_node ev)) as
    [?|?|node body w1 ? ?|node e0 w1 ex ? ? Hex|node e0 w1 fb body w2 ? ? Hfb Htr ?
    |node e0 w1 fb e2 w2 ? ? Hfb Htr ?]; simpl in Ht.
  1,2: rewrite <- (app_nil_r (calls s1)) in Ht at 1; apply app_inv_head in Ht;
       subst t; by apply elem_of_nil in Hin.
  1,2: apply app_inv_head in Ht; subst t; apply list_elem_of_singleton in Hin;
       rewrite Hin in Hkind; done.
  all: apply app_inv_head in Ht; subst t;
       apply elem_of_cons in Hin as [Hin|Hin%list_elem_of_singleton];
       [rewrite Hin in Hkind; done|].
  all: destruct (usable_fallback _ _ _ Hfb Htr) as (Hname & e & rest & fields & He & Hobj & Hget).
  all: split; [done|]; rewrite Hname in He; exists e, rest, fields;
       rewrite Hin; simpl; by rewrite Htr.
Qed.

(** X9: in a report that [execute] returns, [errors] can have no key other
    than "fallback". *)
Theorem returned_errors_only_fallback g p w st n :
  execute post g p w = Some (Return st) →
  is_Some (errors st !! n) → n = "fallback".
Proof.
  intros Hrun Herr.
  pose proof (execute_node_ok post g p w _ n Hrun) as Hok. simpl in Hok.
  apply (node_ok_errors n st Hok) in Herr as (ev & Hev & Hnode & Hkind & [e He]).
  destruct (decide (n = "fallback")) as [|Hne]; [done|]. subst n.
  by destruct (primary_failure_aborts post g p w _ ev e Hrun Hev Hkind He Hne)
    as (st' & ? & _).
Qed.

(** X10: no node is called twice: a run makes at most one primary and at
    most one fallback call per node. *)
Theorem no_node_called_twice g p w o n k :
  execute post g p w = Some o →
  length (filter (λ ev, ev_node ev = n ∧ ev_kind ev = k) (calls (final_state o))) ≤ 1.
Proof.
  intros Hrun. pose proof (execute_node_ok post g p w o n Hrun) as Hok.
  unfold node_ok in Hok.
  assert (Heq : filter (λ ev, ev_node ev = n ∧ ev_kind ev = k) (calls (final_state o))
                = filter (λ ev, ev_kind ev = k) (node_calls n (calls (final_state o)))).
  { unfold node_calls. rewrite list_filter_filter. apply list_filter_iff. tauto. }
  rewrite Heq.
  destruct (node_calls n (calls (final_state o))) as [|c1 [|c2 [|]]]; [ | | |done].
  - simpl. lia.
  - etrans; [apply length_filter|]. done.
  - destruct Hok as (Hk1 & Hk2 & _). rewrite !filter_cons, filter_nil.
    repeat case_decide; simpl; try lia. congruence.
Qed.


(** X12: the keys of [results] and [errors] are names listed under
    "nodes". *)
Theorem report_keys_are_listed g p w o n :
  execute post g p w = Some o →
  is_Some (results (final_state o) !! n) ∨ is_Some (errors (final_state o) !! n) →
  n ∈ spec_names g.
Proof.
  intros Hrun Hkey.
  pose proof (execute_node_ok post g p w o n Hrun) as Hok.
  destruct (node_calls n (calls (final_state o))) as [|ev rest] eqn:Hcalls.
  { unfold node_ok in Hok. rewrite Hcalls in Hok. destruct Hok as [Hr He].
    rewrite Hr, He in Hkey. destruct Hkey as [[]|[]]; done. }
  assert (Hev : ev ∈ node_calls n (calls (final_state o))) by (rewrite Hcalls; left).
  apply elem_of_node_calls in Hev as [<- Hev].
  destruct (execute_call_origin post g p w o ev Hrun Hev)
    as (l1 & l2 & fin & s1 & t & _ & _ & Ht & Hin & _).
  destruct (exec_node_step post (build g) s1 (ev_node ev)); simpl in Ht.
  1,2: rewrite <- (app_nil_r (calls s1)) in Ht at 1; apply app_inv_head in Ht;
       subst t; by apply elem_of_nil in Hin.
  all: by eapply build_attrs.
Qed.

End extras.

Section api_properties.

Context {World PlanError : Type}.
Variable post : World → json → gmap string json → (string + json) * World.
Variable plan : string → PlanError + graph_spec.

(** X13: [plan_and_run] runs the planned graph on an empty payload: every
    value it passes to a service is a result recorded in the report, or
    null. *)
Theorem plan_and_run_passes_results_only intent w o ev k x :
  plan_and_run post plan intent w = Some (Executed o) →
  ev ∈ calls (final_state o) → ev_payload ev !! k = Some x →
  x = JNull ∨ ∃ v, results (final_state o) !! v = Some x.
Proof.
  unfold plan_and_run. destruct (plan intent) as [err|g]; [done|].
  destruct (execute post g ∅ w) as [o'|] eqn:Hrun; [|done].
  intros [= ->] Hev Hk.
  destruct (execute_call_origin post g ∅ w o ev Hrun Hev)
    as (l1 & l2 & fin & s1 & t & Hsort & Hs1 & Ht & Hin & Hfinal & Hok & Hcalls & Hnd & _).
  assert (Hpayload : payload s1 = ∅).
  { pose proof (exec_nodes_payload post (build g) l1 (init_state ∅ w)) as Hp.
    by rewrite Hs1 in Hp. }
  assert (Hkeep : ∀ v r, results s1 !! v = Some r →
                         results (final_state o) !! v = Some r).
  { intros v r Hr. rewrite Hfinal, <- Hr. apply exec_nodes_other.
    destruct (decide (v ∈ ev_node ev :: l2)) as [Hv|]; [exfalso|done].
    destruct (node_ok_untouched v s1 (Hok v)) as [Hnone _]; [|congruence].
    intros e He <-. apply NoDup_app in Hnd as (_ & Hdisj & _).
    by apply (Hdisj (ev_node e)); [apply Hcalls|]. }
  assert (Hgoal : ∀ node, ev_payload ev = resolve_inputs s1 (n_inputs node) →
                          x = JNull ∨ ∃ v, results (final_state o) !! v = Some x).
  { intros node Heq. rewrite Heq in Hk. unfold resolve_inputs in Hk.
    rewrite lookup_fmap in Hk. destruct (n_inputs node !! k) as [v|]; [|done].
    simpl in Hk. rewrite Hpayload, lookup_empty in Hk. simpl in Hk.
    destruct (results s1 !! v) as [r|] eqn:Hr; simplify_eq/=; [|by left].
    right. exists v. by apply Hkeep. }
  destruct (exec_node_step post (build g) s1 (ev_node ev)); simpl in Ht.
  1,2: rewrite <- (app_nil_r (calls s1)) in Ht at 1; apply app_inv_head in Ht;
       subst t; by apply elem_of_nil in Hin.
  all: apply app_inv_head in Ht; subst t.
  all: repeat (apply elem_of_cons in Hin as [Hin|Hin]);
       try (by apply elem_of_nil in Hin).
  all: eapply Hgoal; by rewrite Hin.
Qed.

End api_properties.

(** ** Instances of the further properties *)

Ltac no_failed_call :=
  let ev := fresh "ev" in
  let Hev := fresh "Hev" in
  let Hmsg := fresh "Hmsg" in
  intros ev Hev [? Hmsg]; vm_compute in Hev;
  repeat (apply elem_of_cons in Hev as [->|Hev]; [by vm_compute in Hmsg|]);
  by apply elem_of_nil in Hev.

Ltac all_listed :=
  let e := fresh "e" in
  let He := fresh "He" in
  let Hbad := fresh "Hbad" in
  intros (e & He & Hbad);
  repeat (apply elem_of_cons in He as [->|He];
          [destruct Hbad as [Hbad|Hbad]; apply Hbad; in_list|]);
  by apply elem_of_nil in He.

Lemma duplicate_name_last_wins_witness :
  ∃ a, assoc "A" (g_node (build Examples.g_dup)) = Some (Some a) ∧
       n_name a = "A" ∧ n_endpoint a = JStr "http://echo" ∧ n_inputs a = ∅.
Proof.
  apply (duplicate_name_last_wins Examples.g_dup "A"
           (Examples.mk_node "A" "http://echo" [] None)).
  run.
Defined.

Lemma duplicate_edge_last_wins_witness :
  (("A", "B"), JNull) ∈ g_edge (build Examples.g_dup_edge) ∧
  (("A", "B"), JStr "http://fb") ∉ g_edge (build Examples.g_dup_edge).
Proof.
  assert (Hlast : last_edge "A" "B" (edges Examples.g_dup_edge)
                  = Some (Examples.mk_edge "A" "B" JNull)) by run.
  split.
  - by apply (duplicate_edge_last_wins Examples.g_dup_edge "A" "B" _ Hlast).
  - by intros Hin%(duplicate_edge_last_wins Examples.g_dup_edge "A" "B" _ Hlast).
Defined.

Lemma unlisted_node_raises_witness :
  let s1 := final_state (exec_nodes Examples.stub (build Examples.g_dangling)
                           ["A"] (init_state ∅ 0)) in
  execute Examples.stub Examples.g_dangling ∅ 0
    = Some (Raise (KeyError "endpoint") s1).
Proof.
  intros s1.
  apply (unlisted_node_raises Examples.stub Examples.g_dangling ∅ 0
           ["A"] "X" [] TopoDone s1).
  - run.
  - run.
  - vm_compute. by intros ?%list_elem_of_singleton.
Defined.

Lemma cycle_nodes_never_run_witness :
  let o := Examples.outcome_of Examples.g_cycle in
  node_calls "C" (calls (final_state o)) = [] ∧
  results (final_state o) !! "C" = None ∧ errors (final_state o) !! "C" = None.
Proof.
  apply (cycle_nodes_never_run Examples.stub Examples.g_cycle ∅ 0
           (Examples.outcome_of Examples.g_cycle) "B" "C").
  - run.
  - apply (tc_l _ "B" "C" "B"); [|apply tc_once]; in_list.
  - apply rtc_once. in_list.
Defined.

Lemma acyclic_run_reports_witness :
  ∃ st, Examples.outcome_of Examples.g_chain = Return st ∧ errors st = ∅ ∧
        ∀ n, n ∈ spec_names Examples.g_chain →
             ∃ ev body, node_calls n (calls st) = [ev] ∧ ev_kind ev = Primary ∧
                        ev_reply ev = inr body ∧ results st !! n = Some body.
Proof.
  apply (acyclic_run_reports Examples.stub Examples.g_chain ∅ 0).
  - apply (done_means_acyclic _ ["A"; "B"]). run.
  - all_listed.
  - run.
  - no_failed_call.
Defined.


Lemma failed_call_ends_run_witness :
  ∃ st,
    Examples.outcome_of Examples.g_inner =
      Raise (if decide ("A" ∈ (spec_pairs Examples.g_inner).*2)
             then KeyError "A"
             else HTTPException 502 ("A" +:+ " failed and no fallback available")) st ∧
    errors st !! "A" = Some "boom" ∧ results st !! "A" = None ∧
    last (calls st) = Some Examples.call_inner.
Proof.
  apply (failed_call_ends_run Examples.stub Examples.g_inner ∅ 0
           (Examples.outcome_of Examples.g_inner) Examples.call_inner "boom").
  - run.
  - in_list.
  - reflexivity.
  - reflexivity.
  - done.
Defined.

Lemma fallback_call_only_for_fallback_node_witness :
  ∃ e rest fields,
    in_edges (build (Examples.g_fallback "http://fb")) "fallback" = e :: rest ∧
    e.2 = JObj fields ∧
    assoc "fallback" fields = Some (JStr "http://fb") ∧
    truthy (JStr "http://fb") = true.
Proof.
  apply (fallback_call_only_for_fallback_node Examples.stub
           (Examples.g_fallback "http://fb") ∅ 0
           (Examples.outcome_of (Examples.g_fallback "http://fb"))
           (Examples.call_fallback "http://fb" (inr (JObj [("ok", JBool true)])))).
  - run.
  - in_list.
  - reflexivity.
Defined.

Lemma returned_errors_only_fallback_witness :
  let st := final_state (Examples.outcome_of (Examples.g_fallback "http://fb")) in
  execute Examples.stub (Examples.g_fallback "http://fb") ∅ 0 = Some (Return st) ∧
  ∀ n, is_Some (errors st !! n) → n = "fallback".
Proof.
  intros st. split; [run|]. intros n.
  apply (returned_errors_only_fallback Examples.stub
           (Examples.g_fallback "http://fb") ∅ 0 st n).
  run.
Defined.

Lemma no_node_called_twice_witness :
  length (filter (λ ev, ev_node ev = "fallback" ∧ ev_kind ev = Primary)
            (calls (final_state
                      (Examples.outcome_of (Examples.g_fallback "http://down2")))))
  ≤ 1.
Proof.
  apply (no_node_called_twice Examples.stub (Examples.g_fallback "http://down2") ∅ 0).
  run.
Defined.


Lemma report_keys_are_listed_witness :
  let o := Examples.outcome_of Examples.g_branches in
  is_Some (errors (final_state o) !! "A") ∧ "A" ∈ spec_names Examples.g_branches.
Proof.
  intros o.
  assert (Herr : is_Some (errors (final_state o) !! "A")) by (vm_compute; by eexists).
  split; [done|].
  apply (report_keys_are_listed Examples.stub Examples.g_branches ∅ 0 o "A");
    [run|by right].
Defined.

Lemma plan_and_run_passes_results_only_witness :
  let o := Examples.outcome_of Examples.g_planned in
  ev_payload Examples.call_planned !! "u" = Some JNull ∧
  ∀ k x, ev_payload Examples.call_planned !! k = Some x →
         x = JNull ∨ ∃ v, results (final_state o) !! v = Some x.
Proof.
  intros o. split; [run|]. intros k x.
  apply (plan_and_run_passes_results_only Examples.stub Examples.planner
           "ship the order" 0 o Examples.call_planned k x).
  - run.
  - in_list.
Defined.
